(** * gosignal: hooks and the signal handler

    A shallow embedding of the [gosignal] package: the [hook] registry with
    its ordering recomputation and [Exec], and the [handler] that maps OS
    signals to hooks and drives the one-shot exit sequence.

    Conventions of the embedding.
    - A Go pointer that may be [nil] is an [option]; [None] is [nil].
      A registered [*Function] / [*Notify] is represented by the value it
      points to (the package never writes through these pointers).
    - A Go [map] is a [gmap]; the order in which [range] visits it is
      supplied by a [MapRange] oracle, since Go leaves it unspecified.
    - A [Hook] interface value held by the handler is a location in a store
      of [hook] states, so that the same hook can be shared between several
      signals, the exit hook and the caller.
    - A run-time panic and a loop that does not finish are results
      ([Panic], [Timeout]) of the [outcome] type; loops that Go writes as
      [for cond { ... }] take a fuel argument.
    - Calls that leave the package (callback bodies, channel operations,
      [signal.Notify], [signal.Reset], [os.Exit]) are recorded as [event]s
      in the order in which they are issued.  Mutexes are not modelled:
      every public method runs under its lock from start to end. *)

From Stdlib Require Import Ascii String.
From stdpp Require Import gmap strings list fin_maps sorting.

Open Scope Z_scope.

(** ** Results of running Go code *)

Inductive outcome (A : Type) : Type :=
| Ret (a : A)      (* the call returned *)
| Panic            (* run-time panic (nil dereference) *)
| Timeout.         (* the fuel ran out before the loop finished *)
Arguments Ret {A} a.
Arguments Panic {A}.
Arguments Timeout {A}.

Definition bind {A B} (m : outcome A) (k : A → outcome B) : outcome B :=
  match m with
  | Ret a => k a
  | Panic => Panic
  | Timeout => Timeout
  end.

Notation "x ←← m ;; k" := (bind m (λ x, k))
  (at level 100, m at next level, right associativity).

(** ** Errors *)

Inductive error :=
| ErrSignalExists | ErrExitExists | ErrHookNil | ErrLoopLocked | ErrExitLocked
| ErrFunctionExists | ErrNotifyExists
| ErrFunctionNameEmpty | ErrNotifyNameEmpty
| ErrFuncNil | ErrChanNil
| Errorf_w (e : error) (detail : string).   (* fmt.Errorf("%w: ...", e, ...) *)

(** ** Unsigned 16-bit integers *)

Definition MaxUint16 : Z := 65535.

Record uint16 := U16 {
  u16 : Z;
  u16_range : bool_decide (0 ≤ u16 ≤ MaxUint16)
}.

(** ** OS signals and the context handed to callbacks *)

Abbreviation syscall_Signal := Z.
Definition SIGINT : syscall_Signal := 2.
Definition SIGQUIT : syscall_Signal := 3.
Definition SIGTERM : syscall_Signal := 15.

(** [os.Signal] is an interface: [None] is the nil interface value. *)
Abbreviation os_Signal := (option syscall_Signal).

Inductive et := ExitTypeSignal | ExitTypeManual.

Record OSSignal := mkOSSignal {
  Signal : os_Signal;
  Exit : bool;
  ExitType : et;
  ExitCode : Z
}.

(** ** Function and Notify *)

(** Callback bodies and channels are opaque: an identifier stands for each. *)
Definition func_id := positive.
Definition chan_id := positive.

Module Function.
Record t := mk {
  Func : option func_id;
  Name : string;
  Desc : string;
  Overwrite : bool;
  Order : uint16;
  Concurrent : bool
}.
End Function.

Module Notify.
Record t := mk {
  Chan : option chan_id;
  DoneChan : option chan_id;
  Name : string;
  Desc : string;
  Overwrite : bool;
  Order : uint16;
  NonBlocking : bool
}.
End Notify.

(** ** Events *)

(** A non-nil [Hook] interface value is the location of a [hook]. *)
Abbreviation loc := positive.
Abbreviation Hook := (option loc).

Inductive event :=
| EvCall (f : Function.t) (ctx : OSSignal)    (* function.Func(ctx) *)
| EvGo (f : Function.t) (ctx : OSSignal)      (* go function.Func(ctx) *)
| EvSend (n : Notify.t)                       (* notify.Chan <- struct{}{} *)
| EvTrySend (n : Notify.t)                    (* select { case notify.Chan <- ...: default: } *)
| EvRecvDone (n : Notify.t)                   (* <-notify.DoneChan *)
| EvSignalNotify (sig : os_Signal)            (* signal.Notify(h.sigCh, sig) *)
| EvSignalReset (sigs : list os_Signal)       (* signal.Reset(h.capturing...) *)
| EvExitChTrySend                             (* select { case h.exitCh <- ...: default: } *)
| EvHookExec (hook : Hook) (ctx : OSSignal)      (* hook.Exec(ctx) in handleSignal *)
| EvExitHookExec (hook : Hook) (ctx : OSSignal)  (* h.exitHook.Exec(ctx) in exit *)
| EvOsExit (code : Z).                        (* os.Exit(code) *)

(** ** The hook *)

Record hook := mk_hook {
  name : string;
  desc : string;
  functions : gmap string Function.t;
  notifies : gmap string Notify.t;
  doReorder : bool;
  functionOrder : list (option Function.t);
  notifyOrder : list (option Notify.t)
}.

(** [NewHook(name, desc)]: the state of a freshly constructed hook. *)
Definition NewHook (name desc : string) : hook :=
  mk_hook name desc ∅ ∅ false [] [].

(** *** Map traversal

    [for _, v := range m] visits every entry of [m] once, in an order the
    language does not fix.  The oracle gives the order in which a map is
    traversed; statements about [reorder] hold for every oracle.  (Within
    one recomputation of a hook that has not run yet, every traversal is of
    a different map, so an oracle can give each traversal any order.) *)

Class MapRange := {
  range : ∀ {V : Type}, gmap string V → list (string * V);
  range_perm : ∀ (V : Type) (m : gmap string V), range m ≡ₚ map_to_list m
}.

(** *** The two selection loops of [reorder]

    The loop over [h.functions] and the loop over [h.notifies] differ only
    in the comparison against [lowest] ([<=] for functions, [<] for
    notifies); [cmp] is that comparison. *)

Section Registry.
Context `{MapRange} {E : Type}.
Variable ename : E → string.
Variable eorder : E → uint16.
Variable cmp : Z → Z → bool.

(** Body of the inner [range] loop, on the pair [(lowest, lowestName)]. *)
Definition scan_step (st : Z * string) (e : E) : Z * string :=
  if cmp (u16 (eorder e)) st.1 then (u16 (eorder e), ename e) else st.

(** [lowest = math.MaxUint16; lowestName = ""; for _, e := range m {...}] *)
Definition scan (m : gmap string E) : Z * string :=
  foldl scan_step (MaxUint16, EmptyString) (range m).*2.

(** [for len(m) > 0 { scan; ord = append(ord, m[lowestName]); delete(m, lowestName) }] *)
Fixpoint order_loop (fuel : nat) (m : gmap string E) (ord : list (option E))
  : outcome (gmap string E * list (option E)) :=
  if bool_decide (size m = 0%nat) then Ret (m, ord) else
  match fuel with
  | O => Timeout
  | S fuel' =>
      let lowestName := (scan m).2 in
      order_loop fuel' (delete lowestName m) (ord ++ [m !! lowestName])
  end.

(** [for _, e := range ord { m[e.Name] = e }]; [e.Name] on a nil entry panics. *)
Fixpoint restore (ord : list (option E)) (m : gmap string E) : outcome (gmap string E) :=
  match ord with
  | [] => Ret m
  | None :: _ => Panic
  | Some e :: ord' => restore ord' (<[ename e := e]> m)
  end.

End Registry.

(** [clear(s)] on a slice zeroes every element and keeps the length. *)
Definition clear_slice {A} (s : list (option A)) : list (option A) :=
  replicate (length s) None.

Definition hook_reorder `{MapRange} (fuel : nat) (h : hook) : outcome hook :=
  if negb (doReorder h) then Ret h else
  let fo := clear_slice (functionOrder h) in
  let no := clear_slice (notifyOrder h) in
  r1 ←← order_loop Function.Name Function.Order Z.leb fuel (functions h) fo ;;
  r2 ←← order_loop Notify.Name Notify.Order Z.ltb fuel (notifies h) no ;;
  fs ←← restore Function.Name r1.2 r1.1 ;;
  ns ←← restore Notify.Name r2.2 r2.1 ;;
  Ret (mk_hook (name h) (desc h) fs ns (doReorder h) r1.2 r2.2).

(** *** Exec *)

Definition function_event (ctx : OSSignal) (f : Function.t) : event :=
  if Function.Concurrent f then EvGo f ctx else EvCall f ctx.

Definition notify_events (n : Notify.t) : list event :=
  (if Notify.NonBlocking n then EvTrySend n else EvSend n)
  :: (if Notify.DoneChan n is Some _ then [EvRecvDone n] else []).

Fixpoint exec_functions (ctx : OSSignal) (l : list (option Function.t))
  : outcome (list event) :=
  match l with
  | [] => Ret []
  | None :: _ => Panic
  | Some f :: l' => evs ←← exec_functions ctx l' ;; Ret (function_event ctx f :: evs)
  end.

Fixpoint exec_notifies (l : list (option Notify.t)) : outcome (list event) :=
  match l with
  | [] => Ret []
  | None :: _ => Panic
  | Some n :: l' => evs ←← exec_notifies l' ;; Ret (notify_events n ++ evs)
  end.

(** [Exec] returns the hook after the recomputation and the events of the
    dispatch pass; its [error] result is always nil and is left out. *)
Definition hook_Exec `{MapRange} (fuel : nat) (ctx : OSSignal) (h : hook)
  : outcome (hook * list event) :=
  h' ←← hook_reorder fuel h ;;
  fe ←← exec_functions ctx (functionOrder h') ;;
  ne ←← exec_notifies (notifyOrder h') ;;
  Ret (h', fe ++ ne).

(** *** Lookup and registration *)

Definition hook_GetFunction (name : string) (h : hook) : option Function.t * hook :=
  (functions h !! name, h).

Definition hook_GetNotify (name : string) (h : hook) : option Notify.t * hook :=
  (notifies h !! name, h).

(** The text that [fmt.Errorf] puts after the wrapped error: the name in
    double quotes. *)
Definition quoted (s : string) : string :=
  String (Ascii.ascii_of_nat 34) (s +:+ String (Ascii.ascii_of_nat 34) EmptyString).

Definition hook_Function (function : option Function.t) (h : hook)
  : outcome (option error * hook) :=
  match function with
  | None => Panic
  | Some f =>
      if bool_decide (Function.Name f = EmptyString) then Ret (Some ErrFunctionNameEmpty, h)
      else if bool_decide (Function.Func f = None) then Ret (Some ErrFuncNil, h)
      else if bool_decide (is_Some (functions h !! Function.Name f))
              && negb (Function.Overwrite f)
      then Ret (Some (Errorf_w ErrFunctionExists (quoted (Function.Name f))), h)
      else Ret (None, mk_hook (name h) (desc h)
                        (<[Function.Name f := f]> (functions h)) (notifies h)
                        true (functionOrder h) (notifyOrder h))
  end.

Definition hook_Notify (notify : option Notify.t) (h : hook)
  : outcome (option error * hook) :=
  match notify with
  | None => Panic
  | Some n =>
      if bool_decide (Notify.Name n = EmptyString) then Ret (Some ErrNotifyNameEmpty, h)
      else if bool_decide (Notify.Chan n = None) then Ret (Some ErrChanNil, h)
      else if bool_decide (is_Some (notifies h !! Notify.Name n))
              && negb (Notify.Overwrite n)
      then Ret (Some (Errorf_w ErrNotifyExists (quoted (Notify.Name n))), h)
      else Ret (None, mk_hook (name h) (desc h)
                        (functions h) (<[Notify.Name n := n]> (notifies h))
                        true (functionOrder h) (notifyOrder h))
  end.

(** ** The handler *)

Record handler := mk_handler {
  exitHook : Hook;
  hookMap : gmap os_Signal Hook;
  capturing : list os_Signal;
  loopLock : bool;
  exitLock : bool
}.

Definition newHandler : handler := mk_handler None ∅ [] false false.

(** The process as the handler sees it: the store of hooks, the one handler
    and the calls issued so far. *)
Record world := mk_world {
  hooks : gmap loc hook;
  hd : handler;
  log : list event
}.

Definition emit (e : event) (w : world) : world :=
  mk_world (hooks w) (hd w) (log w ++ [e]).

Definition with_hd (f : handler → handler) (w : world) : world :=
  mk_world (hooks w) (f (hd w)) (log w).

Definition set_exitHook (hook : Hook) (h : handler) : handler :=
  mk_handler hook (hookMap h) (capturing h) (loopLock h) (exitLock h).
Definition set_hookMap (m : gmap os_Signal Hook) (h : handler) : handler :=
  mk_handler (exitHook h) m (capturing h) (loopLock h) (exitLock h).
Definition set_capturing (c : list os_Signal) (h : handler) : handler :=
  mk_handler (exitHook h) (hookMap h) c (loopLock h) (exitLock h).
Definition set_loopLock (b : bool) (h : handler) : handler :=
  mk_handler (exitHook h) (hookMap h) (capturing h) b (exitLock h).
Definition set_exitLock (b : bool) (h : handler) : handler :=
  mk_handler (exitHook h) (hookMap h) (capturing h) (loopLock h) b.

(** [NewHook] as seen from the handler: a new hook at a fresh location. *)
Definition alloc_hook (hk : hook) (w : world) : Hook * world :=
  let l := fresh (dom (hooks w)) in
  (Some l, mk_world (<[l := hk]> (hooks w)) (hd w) (log w)).

(** [sig.String()] of the standard library; on the nil interface it panics. *)
Class SignalNames := { Signal_String : syscall_Signal → string }.

Definition os_Signal_String `{SignalNames} (sig : os_Signal) : outcome string :=
  match sig with
  | None => Panic
  | Some s => Ret (Signal_String s)
  end.

(** [strings.ReplaceAll(s, " ", "_")] *)
Fixpoint ReplaceAll_space_underscore (s : string) : string :=
  match s with
  | EmptyString => EmptyString
  | String c s' =>
      String (if Ascii.eqb c " "%char then "_"%char else c)
             (ReplaceAll_space_underscore s')
  end.

(** [if !slices.Contains(h.capturing, sig) { signal.Notify(h.sigCh, sig);
    h.capturing = append(h.capturing, sig) }] *)
Definition capture (w : world) (sig : os_Signal) : world :=
  if bool_decide (sig ∈ capturing (hd w)) then w
  else with_hd (set_capturing (capturing (hd w) ++ [sig])) (emit (EvSignalNotify sig) w).

Definition termination_signals : list os_Signal :=
  [Some SIGINT; Some SIGTERM; Some SIGQUIT].

Definition handler_setExit (hook : Hook) (w : world) : option error * world :=
  match hook with
  | None => (Some ErrHookNil, w)
  | Some _ =>
      match exitHook (hd w) with
      | Some _ => (Some ErrExitExists, w)
      | None =>
          (None, foldl capture (with_hd (set_exitHook hook) w) termination_signals)
      end
  end.

Definition handler_SetExit := handler_setExit.

Definition handler_GetExit (w : world) : Hook * world := (exitHook (hd w), w).

Definition handler_GetsExit (w : world) : Hook * world :=
  match exitHook (hd w) with
  | Some _ => (exitHook (hd w), w)
  | None =>
      let '(hook, w1) := alloc_hook (NewHook "exit" "Handle program exit") w in
      let '(_, w2) := handler_setExit hook w1 in
      (exitHook (hd w2), w2)
  end.

Definition handler_set `{SignalNames} (sig : os_Signal) (hook : Hook) (w : world)
  : outcome (option error * world) :=
  match hook with
  | None => Ret (Some ErrHookNil, w)
  | Some _ =>
      match hookMap (hd w) !! sig with
      | Some _ =>
          s ←← os_Signal_String sig ;;
          Ret (Some (Errorf_w ErrSignalExists s), w)
      | None =>
          Ret (None, capture (with_hd (set_hookMap (<[sig := hook]> (hookMap (hd w)))) w) sig)
      end
  end.

Definition handler_Set `{SignalNames} := handler_set.

Definition handler_Get (sig : os_Signal) (w : world) : Hook * world :=
  match hookMap (hd w) !! sig with
  | Some hook => (hook, w)
  | None => (None, w)
  end.

Definition handler_Gets `{SignalNames} (sig : os_Signal) (w : world)
  : outcome (Hook * world) :=
  match hookMap (hd w) !! sig with
  | Some hook => Ret (hook, w)
  | None =>
      s ←← os_Signal_String sig ;;
      let '(hook, w1) :=
        alloc_hook (NewHook ("signal." +:+ ReplaceAll_space_underscore s)
                            ("Handle " +:+ s +:+ " signal")) w in
      r ←← handler_set sig hook w1 ;;
      Ret (default None (hookMap (hd r.2) !! sig), r.2)
  end.

(** [hook.Exec(ctx)] through the interface: the hook at that location runs
    and its new state is stored back. *)
Definition Hook_Exec `{MapRange} (fuel : nat) (hook : Hook) (ctx : OSSignal) (w : world)
  : outcome world :=
  match hook with
  | None => Panic
  | Some l =>
      match hooks w !! l with
      | None => Panic
      | Some hk =>
          r ←← hook_Exec fuel ctx hk ;;
          Ret (mk_world (<[l := r.1]> (hooks w)) (hd w) (log w ++ r.2))
      end
  end.

(** [switch sig { case syscall.SIGINT, syscall.SIGTERM, syscall.SIGQUIT: ... }] *)
Definition is_termination (sig : os_Signal) : bool :=
  bool_decide (sig = Some SIGINT) || bool_decide (sig = Some SIGTERM)
  || bool_decide (sig = Some SIGQUIT).

(** [os.Exit] ends the process.  It is recorded as an event and the model
    goes on, so that calls arriving after it can be asked about. *)
Definition handler_exit `{MapRange} (fuel : nat) (code : Z) (t : et) (sig : os_Signal)
  (w : world) : outcome world :=
  if exitLock (hd w) then Ret w else
  let w := with_hd (set_exitLock true) w in
  let w := emit EvExitChTrySend w in
  let w := with_hd (set_loopLock false) w in
  let s := mkOSSignal sig true t code in
  w ←← match exitHook (hd w) with
       | Some l => Hook_Exec fuel (Some l) s (emit (EvExitHookExec (Some l) s) w)
       | None => Ret w
       end ;;
  let w := emit (EvSignalReset (capturing (hd w))) w in
  Ret (emit (EvOsExit code) w).

Definition handler_Exit `{MapRange} (fuel : nat) (code : Z) (w : world) : outcome world :=
  handler_exit fuel code ExitTypeManual None w.

Definition handler_handleSignal `{MapRange} (fuel : nat) (sig : os_Signal) (w : world)
  : outcome world :=
  if exitLock (hd w) then Ret w else
  let s := mkOSSignal sig false ExitTypeSignal 0 in
  let s := if is_termination sig
           then mkOSSignal (Signal s) true (ExitType s) 0 else s in
  w ←← match hookMap (hd w) !! sig with
       | Some hook => Hook_Exec fuel hook s (emit (EvHookExec hook s) w)
       | None => Ret w
       end ;;
  if is_termination sig then handler_exit fuel 0 ExitTypeSignal sig w else Ret w.

(** [Loop] up to the point where it starts waiting: the two state checks
    panic, otherwise the loop is marked as running. *)
Definition handler_Loop_enter (w : world) : outcome world :=
  if exitLock (hd w) then Panic
  else if loopLock (hd w) then Panic
  else Ret (with_hd (set_loopLock true) w).

(** ** Registration scripts

    A hook is only changed through [Function], [Notify] and [Exec]; a
    script is a sequence of registration calls with non-nil arguments. *)

Inductive registration :=
| RegFunction (f : Function.t)
| RegNotify (n : Notify.t).

Definition register (h : hook) (r : registration) : hook :=
  match r with
  | RegFunction f =>
      match hook_Function (Some f) h with Ret (_, h') => h' | _ => h end
  | RegNotify n =>
      match hook_Notify (Some n) h with Ret (_, h') => h' | _ => h end
  end.

Definition register_all (h : hook) (rs : list registration) : hook :=
  foldl register h rs.

(** Names whose [Function] registration was accepted somewhere in a script
    that starts on hook [h]. *)
Fixpoint accepted_functions (h : hook) (rs : list registration) : list string :=
  match rs with
  | [] => []
  | r :: rs' =>
      match r with
      | RegFunction f =>
          match hook_Function (Some f) h with
          | Ret (None, _) => [Function.Name f]
          | _ => []
          end
      | RegNotify _ => []
      end ++ accepted_functions (register h r) rs'
  end.

Fixpoint accepted_notifies (h : hook) (rs : list registration) : list string :=
  match rs with
  | [] => []
  | r :: rs' =>
      match r with
      | RegNotify n =>
          match hook_Notify (Some n) h with
          | Ret (None, _) => [Notify.Name n]
          | _ => []
          end
      | RegFunction _ => []
      end ++ accepted_notifies (register h r) rs'
  end.

(** Two traversal orders used to run examples: the order of [map_to_list]
    and its reverse. *)
Program Definition range_fwd : MapRange :=
  {| range := λ V m, map_to_list m |}.
Next Obligation. done. Qed.

Program Definition range_rev : MapRange :=
  {| range := λ V m, reverse (map_to_list m) |}.
Next Obligation. intros. by rewrite reverse_Permutation. Qed.

(** ** Predicates used in the statements *)

(** Every entry of a registry is stored under its own name. *)
Definition keyed {E : Type} (ename : E → string) (m : gmap string E) : Prop :=
  ∀ k e, m !! k = Some e → ename e = k.

(** [a] does not run after [b] as far as [Order] is concerned. *)
Definition order_le {E : Type} (eorder : E → uint16) (a b : E) : Prop :=
  u16 (eorder a) ≤ u16 (eorder b).

(** A hook on which [Exec] has not run yet: what registration calls on a
    new hook lead to. *)
Record unexecuted (h : hook) : Prop := {
  un_functions_keyed : keyed Function.Name (functions h);
  un_notifies_keyed : keyed Notify.Name (notifies h);
  un_functions_named : functions h !! EmptyString = None;
  un_notifies_named : notifies h !! EmptyString = None;
  un_clean : doReorder h = false → functions h = ∅ ∧ notifies h = ∅;
  un_functionOrder : functionOrder h = [];
  un_notifyOrder : notifyOrder h = []
}.

(** The tie-break rule of the specification, for two functions registered
    one after the other on a new hook: they run in registration order. *)
Definition ties_follow_registration (R : MapRange) : Prop :=
  ∀ (a b : Function.t) (fuel : nat) (ctx : OSSignal) h' evs,
    Function.Name a ≠ EmptyString → Function.Func a ≠ None →
    Function.Name b ≠ EmptyString → Function.Func b ≠ None →
    Function.Name a ≠ Function.Name b →
    Function.Order a = Function.Order b →
    hook_Exec fuel ctx (register_all (NewHook "h" "d") [RegFunction a; RegFunction b])
    = Ret (h', evs) →
    evs = [function_event ctx a; function_event ctx b].

(** Every hook stored in the signal map is non-nil. *)
Definition hookMap_nonnil (w : world) : Prop :=
  ∀ sig hook, hookMap (hd w) !! sig = Some hook → hook ≠ None.

(** ** Calls that reach the exit sequence *)

Inductive handler_call :=
| CallHandleSignal (sig : os_Signal)   (* a signal taken from the queue by Loop *)
| CallExit (code : Z).                 (* a manual Exit(code) *)

Definition exit_triggering (c : handler_call) : Prop :=
  match c with
  | CallHandleSignal sig => is_termination sig = true
  | CallExit _ => True
  end.

Definition run_call `{MapRange} (fuel : nat) (c : handler_call) (w : world)
  : outcome world :=
  match c with
  | CallHandleSignal sig => handler_handleSignal fuel sig w
  | CallExit code => handler_Exit fuel code w
  end.

Fixpoint run_calls `{MapRange} (fuel : nat) (cs : list handler_call) (w : world)
  : outcome world :=
  match cs with
  | [] => Ret w
  | c :: cs' => w' ←← run_call fuel c w ;; run_calls fuel cs' w'
  end.

Definition is_OsExit (e : event) : bool :=
  match e with EvOsExit _ => true | _ => false end.
Definition is_ExitHookExec (e : event) : bool :=
  match e with EvExitHookExec _ _ => true | _ => false end.
Definition is_HookExec (e : event) : bool :=
  match e with EvHookExec _ _ => true | _ => false end.

(** Events issued by the dispatch pass of a hook. *)
Definition is_dispatch (e : event) : bool :=
  match e with
  | EvCall _ _ | EvGo _ _ | EvSend _ | EvTrySend _ | EvRecvDone _ => true
  | _ => false
  end.

(** A hook value that [Exec] can run to completion within [fuel] rounds. *)
Definition runnable (fuel : nat) (w : world) (hook : Hook) : Prop :=
  ∃ l hk, hook = Some l ∧ hooks w !! l = Some hk
    ∧ unexecuted hk
    ∧ (∀ k n, notifies hk !! k = Some n → u16 (Notify.Order n) < MaxUint16)
    ∧ (size (functions hk) ≤ fuel)%nat
    ∧ (size (notifies hk) ≤ fuel)%nat.

(** What the first call needs in order to return: the hook of the signal
    and the exit hook, where present, are runnable and are not one and the
    same hook. *)
Definition first_call_ready (fuel : nat) (c : handler_call) (w : world) : Prop :=
  (exitHook (hd w) = None ∨ runnable fuel w (exitHook (hd w)))
  ∧ match c with
    | CallExit _ => True
    | CallHandleSignal sig =>
        hookMap (hd w) !! sig = None
        ∨ ∃ hook, hookMap (hd w) !! sig = Some hook
            ∧ runnable fuel w hook ∧ hook ≠ exitHook (hd w)
    end.

(** ** Calls through the interfaces

    A caller holds [Hook] values and calls their methods; the handler is
    reached through the methods of the [Handler] interface and, from [Loop],
    through [handleSignal]. *)

Definition Hook_Function (hook : Hook) (function : option Function.t) (w : world)
  : outcome (option error * world) :=
  match hook with
  | None => Panic
  | Some l =>
      match hooks w !! l with
      | None => Panic
      | Some hk =>
          r ←← hook_Function function hk ;;
          Ret (r.1, mk_world (<[l := r.2]> (hooks w)) (hd w) (log w))
      end
  end.

Definition Hook_Notify (hook : Hook) (notify : option Notify.t) (w : world)
  : outcome (option error * world) :=
  match hook with
  | None => Panic
  | Some l =>
      match hooks w !! l with
      | None => Panic
      | Some hk =>
          r ←← hook_Notify notify hk ;;
          Ret (r.1, mk_world (<[l := r.2]> (hooks w)) (hd w) (log w))
      end
  end.

Inductive api_call :=
| ApiSetExit (hook : Hook)
| ApiGetExit
| ApiGetsExit
| ApiSet (sig : os_Signal) (hook : Hook)
| ApiGet (sig : os_Signal)
| ApiGets (sig : os_Signal)
| ApiLoop                                   (* Loop, up to the point where it waits *)
| ApiHandleSignal (sig : os_Signal)         (* a signal taken from the queue by Loop *)
| ApiExit (code : Z)
| ApiHookFunction (hook : Hook) (function : option Function.t)
| ApiHookNotify (hook : Hook) (notify : option Notify.t)
| ApiHookExec (hook : Hook) (ctx : OSSignal).

Definition run_api `{MapRange} `{SignalNames} (fuel : nat) (c : api_call) (w : world)
  : outcome world :=
  match c with
  | ApiSetExit hook => Ret (handler_SetExit hook w).2
  | ApiGetExit => Ret (handler_GetExit w).2
  | ApiGetsExit => Ret (handler_GetsExit w).2
  | ApiSet sig hook => r ←← handler_Set sig hook w ;; Ret r.2
  | ApiGet sig => Ret (handler_Get sig w).2
  | ApiGets sig => r ←← handler_Gets sig w ;; Ret r.2
  | ApiLoop => handler_Loop_enter w
  | ApiHandleSignal sig => handler_handleSignal fuel sig w
  | ApiExit code => handler_Exit fuel code w
  | ApiHookFunction hook function => r ←← Hook_Function hook function w ;; Ret r.2
  | ApiHookNotify hook notify => r ←← Hook_Notify hook notify w ;; Ret r.2
  | ApiHookExec hook ctx => Hook_Exec fuel hook ctx w
  end.

Fixpoint run_apis `{MapRange} `{SignalNames} (fuel : nat) (cs : list api_call) (w : world)
  : outcome world :=
  match cs with
  | [] => Ret w
  | c :: cs' => w' ←← run_api fuel c w ;; run_apis fuel cs' w'
  end.

(** The process before any call: some hooks the caller has made, a new
    handler, nothing issued yet. *)
Definition initial_world (hs : gmap loc hook) : world := mk_world hs newHandler [].

(** The signals handed to [signal.Notify], in the order of the calls. *)
Definition notified (evs : list event) : list os_Signal :=
  omap (λ e, match e with EvSignalNotify sig => Some sig | _ => None end) evs.

Definition is_SignalReset (e : event) : bool :=
  match e with EvSignalReset _ => true | _ => false end.

(** What holds of the handler in every state it can get into. *)
Record handler_inv (w : world) : Prop := {
  inv_nodup : NoDup (capturing (hd w));
  inv_notified : notified (log w) = capturing (hd w);
  inv_nonnil : hookMap_nonnil w;
  inv_hooks_captured : ∀ sig, is_Some (hookMap (hd w) !! sig) → sig ∈ capturing (hd w);
  inv_exit_captured :
    exitHook (hd w) ≠ None → ∀ sig, sig ∈ termination_signals → sig ∈ capturing (hd w);
  inv_os_exit :
    length (List.filter is_OsExit (log w)) = if exitLock (hd w) then 1%nat else 0%nat;
  inv_reset :
    length (List.filter is_SignalReset (log w)) = if exitLock (hd w) then 1%nat else 0%nat;
  inv_loop : exitLock (hd w) = true → loopLock (hd w) = false
}.





(** A hook that has completed an [Exec] with something to run. *)
Definition spent_hook (h : hook) : Prop :=
  doReorder h = true ∧ (functionOrder h ≠ [] ∨ notifyOrder h ≠ []).


(** What a call may do to the handler: add, never take away. *)
Record grows (w w' : world) : Prop := {
  grows_hooks : ∀ l, is_Some (hooks w !! l) → is_Some (hooks w' !! l);
  grows_hookMap : ∀ sig hook, hookMap (hd w) !! sig = Some hook →
                              hookMap (hd w') !! sig = Some hook;
  grows_exitHook : exitHook (hd w) ≠ None → exitHook (hd w') = exitHook (hd w);
  grows_capturing : capturing (hd w) `prefix_of` capturing (hd w');
  grows_log : log w `prefix_of` log w';
  grows_exitLock : exitLock (hd w) = true → exitLock (hd w') = true
}.

(** ** Sample values *)

Definition sample_ctx : OSSignal := mkOSSignal None true ExitTypeManual 0.

Definition sample_names : SignalNames := {| Signal_String := λ _, "signal" |}.

Definition fn_a : Function.t :=
  Function.mk (Some 1%positive) "a" "first" false (U16 5 I) false.
Definition fn_b : Function.t :=
  Function.mk (Some 2%positive) "b" "second" false (U16 5 I) false.
Definition nt_last : Notify.t :=
  Notify.mk (Some 1%positive) None "n" "last" false (U16 65535 I) false.

(** * Properties *)

Lemma uint16_le_max (x : uint16) : u16 x ≤ MaxUint16.
Proof. destruct x as [v Hv]; simpl. apply bool_decide_unpack in Hv. lia. Qed.

Lemma uint16_eq (x y : uint16) : u16 x = u16 y → x = y.
Proof.
  destruct x as [v Hv], y as [v' Hv']; simpl; intros ->.
  f_equal. apply proof_irrel.
Qed.

(** ** Registration *)

Lemma hook_Function_cases (h : hook) (f : Function.t) :
  (Function.Name f = EmptyString →
     hook_Function (Some f) h = Ret (Some ErrFunctionNameEmpty, h))
  ∧ (Function.Name f ≠ EmptyString → Function.Func f = None →
     hook_Function (Some f) h = Ret (Some ErrFuncNil, h))
  ∧ (Function.Name f ≠ EmptyString → Function.Func f ≠ None →
     is_Some (functions h !! Function.Name f) → Function.Overwrite f = false →
     hook_Function (Some f) h
     = Ret (Some (Errorf_w ErrFunctionExists (quoted (Function.Name f))), h))
  ∧ (Function.Name f ≠ EmptyString → Function.Func f ≠ None →
     functions h !! Function.Name f = None ∨ Function.Overwrite f = true →
     hook_Function (Some f) h
     = Ret (None, mk_hook (name h) (desc h)
                    (<[Function.Name f := f]> (functions h)) (notifies h)
                    true (functionOrder h) (notifyOrder h))).
Proof.
  unfold hook_Function. repeat split.
  - intros ->. by rewrite bool_decide_true.
  - intros Hn Hf. rewrite bool_decide_false by done. by rewrite bool_decide_true.
  - intros Hn Hf Hin Ho.
    rewrite !bool_decide_false by done.
    rewrite bool_decide_true by done. by rewrite Ho.
  - intros Hn Hf Hfree.
    rewrite !bool_decide_false by done.
    destruct Hfree as [Hnone | Ho].
    + rewrite bool_decide_false; [done |]. rewrite Hnone. by intros [? ?].
    + rewrite Ho. by rewrite andb_false_r.
Qed.

Lemma hook_Notify_cases (h : hook) (n : Notify.t) :
  (Notify.Name n = EmptyString →
     hook_Notify (Some n) h = Ret (Some ErrNotifyNameEmpty, h))
  ∧ (Notify.Name n ≠ EmptyString → Notify.Chan n = None →
     hook_Notify (Some n) h = Ret (Some ErrChanNil, h))
  ∧ (Notify.Name n ≠ EmptyString → Notify.Chan n ≠ None →
     is_Some (notifies h !! Notify.Name n) → Notify.Overwrite n = false →
     hook_Notify (Some n) h
     = Ret (Some (Errorf_w ErrNotifyExists (quoted (Notify.Name n))), h))
  ∧ (Notify.Name n ≠ EmptyString → Notify.Chan n ≠ None →
     notifies h !! Notify.Name n = None ∨ Notify.Overwrite n = true →
     hook_Notify (Some n) h
     = Ret (None, mk_hook (name h) (desc h)
                    (functions h) (<[Notify.Name n := n]> (notifies h))
                    true (functionOrder h) (notifyOrder h))).
Proof.
  unfold hook_Notify. repeat split.
  - intros ->. by rewrite bool_decide_true.
  - intros Hn Hf. rewrite bool_decide_false by done. by rewrite bool_decide_true.
  - intros Hn Hf Hin Ho.
    rewrite !bool_decide_false by done.
    rewrite bool_decide_true by done. by rewrite Ho.
  - intros Hn Hf Hfree.
    rewrite !bool_decide_false by done.
    destruct Hfree as [Hnone | Ho].
    + rewrite bool_decide_false; [done |]. rewrite Hnone. by intros [? ?].
    + rewrite Ho. by rewrite andb_false_r.
Qed.

(** A registration call with a non-nil argument returns; when it reports an
    error the hook is the one it was given, and when it reports none the
    entry is stored under its own non-empty name and the flag is set. *)
Lemma hook_Function_inv (h : hook) (f : Function.t) :
  ∃ e h', hook_Function (Some f) h = Ret (e, h')
    ∧ (is_Some e → h' = h)
    ∧ (e = None →
         Function.Name f ≠ EmptyString ∧ Function.Func f ≠ None
         ∧ h' = mk_hook (name h) (desc h)
                  (<[Function.Name f := f]> (functions h)) (notifies h)
                  true (functionOrder h) (notifyOrder h)).
Proof.
  unfold hook_Function.
  repeat case_bool_decide; simpl;
    try destruct (Function.Overwrite f); simpl;
    eexists _, _; (split; [reflexivity |]); split;
    first [ done | by intros [? ?] | by intros ? ].
Qed.

Lemma hook_Notify_inv (h : hook) (n : Notify.t) :
  ∃ e h', hook_Notify (Some n) h = Ret (e, h')
    ∧ (is_Some e → h' = h)
    ∧ (e = None →
         Notify.Name n ≠ EmptyString ∧ Notify.Chan n ≠ None
         ∧ h' = mk_hook (name h) (desc h)
                  (functions h) (<[Notify.Name n := n]> (notifies h))
                  true (functionOrder h) (notifyOrder h)).
Proof.
  unfold hook_Notify.
  repeat case_bool_decide; simpl;
    try destruct (Notify.Overwrite n); simpl;
    eexists _, _; (split; [reflexivity |]); split;
    first [ done | by intros [? ?] | by intros ? ].
Qed.

(** ** The selection loops, for any kind of entry *)

Section RegistryFacts.
Context `{MapRange} {E : Type}.
Variable ename : E → string.
Variable eorder : E → uint16.

Lemma keyed_delete m k : keyed ename m → keyed ename (delete k m).
Proof.
  intros Hm k' e. rewrite lookup_delete_Some. intros [_ ?]. by apply Hm.
Qed.

Lemma keyed_insert m e : keyed ename m → keyed ename (<[ename e := e]> m).
Proof.
  intros Hm k' e'. rewrite lookup_insert_Some.
  intros [[<- <-] | [_ ?]]; [done | by apply Hm].
Qed.

Lemma range_values_perm (m : gmap string E) : (range m).*2 ≡ₚ (map_to_list m).*2.
Proof. by rewrite range_perm. Qed.

Lemma elem_of_range_values (m : gmap string E) e :
  e ∈ (range m).*2 ↔ ∃ k, m !! k = Some e.
Proof.
  rewrite range_values_perm, list_elem_of_fmap. split.
  - intros [[k e'] [-> Hin]]. exists k. by apply elem_of_map_to_list.
  - intros [k Hk]. exists (k, e). split; [done |]. by apply elem_of_map_to_list.
Qed.

Section Scan.
Variable cmp : Z → Z → bool.
Hypothesis cmp_true : ∀ a b, cmp a b = true → a ≤ b.
Hypothesis cmp_false : ∀ a b, cmp a b = false → b ≤ a.

(** The inner loop leaves [lowest] unchanged or ends on an entry of the
    traversal that no other entry undercuts. *)
Lemma scan_fold l st :
  let st' := foldl (scan_step ename eorder cmp) st l in
  st'.1 ≤ st.1
  ∧ (∀ e, e ∈ l → st'.1 ≤ u16 (eorder e))
  ∧ (st' = st ∨ ∃ e, e ∈ l ∧ st' = (u16 (eorder e), ename e)).
Proof.
  revert st. induction l as [| e l IH]; intros st; simpl.
  { split; [lia |]. split; [by intros ? ?%elem_of_nil | by left]. }
  specialize (IH (scan_step ename eorder cmp st e)).
  destruct IH as (Hle & Hall & Hcase).
  unfold scan_step in *.
  destruct (cmp (u16 (eorder e)) st.1) eqn:Hc; simpl in *.
  - apply cmp_true in Hc. split; [lia |]. split.
    + intros e' [-> | Hin]%elem_of_cons; [lia | by apply Hall].
    + right. destruct Hcase as [-> | (e' & Hin & ->)].
      * exists e. split; [left | done].
      * exists e'. split; [by right | done].
  - apply cmp_false in Hc. split; [lia |]. split.
    + intros e' [-> | Hin]%elem_of_cons; [lia | by apply Hall].
    + destruct Hcase as [-> | (e' & Hin & ->)]; [by left |].
      right. exists e'. split; [by right | done].
Qed.

(** When the first visited entry passes the comparison against
    [math.MaxUint16], the scan ends on a least entry. *)
Lemma scan_picks_least (m : gmap string E) :
  m ≠ ∅ →
  (∀ k e, m !! k = Some e → cmp (u16 (eorder e)) MaxUint16 = true) →
  ∃ k e, m !! k = Some e
    ∧ scan ename eorder cmp m = (u16 (eorder e), ename e)
    ∧ ∀ k' e', m !! k' = Some e' → order_le eorder e e'.
Proof.
  intros Hne Hpick. unfold scan.
  assert (Hall : ∀ e, e ∈ (range m).*2 → ∃ k, m !! k = Some e)
    by (intros e; apply elem_of_range_values).
  assert (Hall' : ∀ k e, m !! k = Some e → e ∈ (range m).*2)
    by (intros k e ?; apply elem_of_range_values; eauto).
  destruct ((range m).*2) as [| e0 l] eqn:Hl.
  { exfalso. apply Hne, map_to_list_empty_iff.
    pose proof (range_values_perm m) as Hp. rewrite Hl in Hp.
    apply Permutation_nil_l in Hp. symmetry in Hp. by apply fmap_nil_inv in Hp. }
  simpl. unfold scan_step at 2; simpl.
  destruct (Hall e0) as [k0 Hk0]; [left |].
  rewrite (Hpick _ _ Hk0).
  pose proof (scan_fold l (u16 (eorder e0), ename e0)) as (Hle & Hmin & Hcase).
  simpl in *.
  destruct Hcase as [Heq | (e & Hin & Heq)].
  - exists k0, e0. split; [done |]. split; [done |].
    intros k' e' Hk'. unfold order_le.
    pose proof (Hall' _ _ Hk') as Hin. apply elem_of_cons in Hin as [-> | Hin]; [lia |].
    specialize (Hmin _ Hin). rewrite Heq in Hmin. done.
  - destruct (Hall e) as [k Hk]; [by right |].
    exists k, e. split; [done |]. split; [done |].
    intros k' e' Hk'. unfold order_le.
    rewrite Heq in Hle, Hmin. simpl in *.
    pose proof (Hall' _ _ Hk') as Hin'.
    apply elem_of_cons in Hin' as [-> | Hin']; [lia |].
    by apply Hmin.
Qed.

(** The selection loop on a map whose entries all pass the first
    comparison: it ends after [size m] rounds with the map empty and the
    entries appended in non-decreasing order. *)
Lemma order_loop_sorts fuel (m : gmap string E) ord :
  keyed ename m →
  (∀ k e, m !! k = Some e → cmp (u16 (eorder e)) MaxUint16 = true) →
  (size m ≤ fuel)%nat →
  ∃ es, order_loop ename eorder cmp fuel m ord = Ret (∅, ord ++ (Some <$> es))
    ∧ es ≡ₚ (map_to_list m).*2
    ∧ StronglySorted (order_le eorder) es.
Proof.
  revert m ord. induction fuel as [| fuel IH]; intros m ord Hkey Hpick Hsize.
  - assert (m = ∅) as -> by (apply map_size_empty_inv; lia).
    exists []. simpl. rewrite bool_decide_true by apply map_size_empty.
    rewrite app_nil_r, map_to_list_empty. repeat split; constructor.
  - simpl. case_bool_decide as Hsz.
    { apply map_size_empty_inv in Hsz as ->. exists [].
      rewrite app_nil_r, map_to_list_empty. repeat split; constructor. }
    apply map_size_non_empty_iff in Hsz.
    destruct (scan_picks_least m Hsz Hpick) as (k & e & Hk & Hscan & Hmin).
    rewrite Hscan; simpl.
    pose proof (Hkey _ _ Hk) as Hname. rewrite Hname, Hk.
    destruct (IH (delete k m) (ord ++ [Some e])) as (es & Hrun & Hperm & Hsorted).
    + by apply keyed_delete.
    + intros k' e'. rewrite lookup_delete_Some. intros [_ ?]. eauto.
    + rewrite map_size_delete_Some by eauto. 
      assert (size m ≠ 0%nat) by by apply map_size_non_empty_iff. lia.
    + exists (e :: es). split; [| split].
      * rewrite Hrun. by rewrite <- app_assoc.
      * rewrite <- (map_to_list_delete m k e Hk). simpl. by rewrite Hperm.
      * constructor; [done |]. apply Forall_forall. intros e' He'.
        rewrite Hperm in He'. apply list_elem_of_fmap in He' as [[k' e''] [-> Hin]].
        apply elem_of_map_to_list in Hin. apply lookup_delete_Some in Hin as [_ Hin].
        by eapply Hmin.
Qed.

End Scan.

(** Writing a complete, duplicate-free sequence of entries back gives the
    map they came from. *)
Lemma restore_Some es (m0 : gmap string E) :
  restore ename (Some <$> es) m0 = Ret (foldl (λ acc e, <[ename e := e]> acc) m0 es).
Proof. revert m0. induction es as [| e es IH]; intros m0; simpl; [done | apply IH]. Qed.

Lemma foldl_insert_list_to_map (kvs : list (string * E)) (m0 : gmap string E) :
  foldl (λ acc kv, <[kv.1 := kv.2]> acc) m0 kvs = list_to_map (reverse kvs) ∪ m0.
Proof.
  revert m0. induction kvs as [| [k e] kvs IH]; intros m0; simpl.
  - by rewrite (left_id_L ∅ (∪)).
  - rewrite IH, reverse_cons, list_to_map_app. simpl.
    rewrite <- (assoc_L (∪)). f_equal.
    by rewrite insert_empty, <- insert_union_singleton_l.
Qed.

Lemma keyed_to_list (m : gmap string E) :
  keyed ename m → (λ e, (ename e, e)) <$> (map_to_list m).*2 = map_to_list m.
Proof.
  intros Hkey. rewrite <- list_fmap_compose.
  rewrite <- (list_fmap_id (map_to_list m)) at 2.
  apply Forall_fmap_ext_1, Forall_forall. intros [k e] Hin; simpl.
  apply elem_of_map_to_list in Hin. by rewrite (Hkey _ _ Hin).
Qed.

Lemma restore_all (m : gmap string E) es :
  keyed ename m → es ≡ₚ (map_to_list m).*2 →
  restore ename (Some <$> es) ∅ = Ret m.
Proof.
  intros Hkey Hperm. rewrite restore_Some. f_equal.
  assert (Hkv : reverse ((λ e, (ename e, e)) <$> es) ≡ₚ map_to_list m).
  { rewrite reverse_Permutation, Hperm. by rewrite keyed_to_list. }
  rewrite <- (foldl_fmap (λ acc kv, <[kv.1 := kv.2]> acc) ∅ es (λ e, (ename e, e))).
  rewrite foldl_insert_list_to_map, (right_id_L ∅ (∪)).
  etrans; [| apply list_to_map_to_list].
  apply list_to_map_proper; [| done].
  rewrite Hkv. apply NoDup_fst_map_to_list.
Qed.

(** With [<] as the comparison the inner loop either selects nothing or
    ends on an entry strictly below the initial [lowest]. *)
Lemma scan_lt_fold l (st : Z * string) :
  let st' := foldl (scan_step ename eorder Z.ltb) st l in
  st' = st ∨ ∃ e, e ∈ l ∧ st' = (u16 (eorder e), ename e) ∧ u16 (eorder e) < st.1.
Proof.
  revert st. induction l as [| e l IH]; intros st; simpl; [by left |].
  specialize (IH (scan_step ename eorder Z.ltb st e)).
  unfold scan_step in *.
  destruct (Z.ltb_spec (u16 (eorder e)) st.1) as [Hlt | Hge]; simpl in *.
  - right. destruct IH as [-> | (e' & Hin & -> & Hlt')].
    + exists e. split; [left | done].
    + exists e'. split; [by right |]. split; [done | lia].
  - destruct IH as [-> | (e' & Hin & -> & Hlt')]; [by left |].
    right. exists e'. split; [by right | done].
Qed.

(** An entry at [math.MaxUint16] is never selected by the [<] loop: the
    loop keeps appending and never empties the map. *)
Lemma order_loop_lt_stuck fuel (m : gmap string E) ord :
  keyed ename m →
  m !! EmptyString = None →
  (∃ k e, m !! k = Some e ∧ u16 (eorder e) = MaxUint16) →
  order_loop ename eorder Z.ltb fuel m ord = Timeout.
Proof.
  revert m ord. induction fuel as [| fuel IH]; intros m ord Hkey Hnamed (k & e & Hk & Hmax).
  - simpl. rewrite bool_decide_false; [done |].
    intros ->%map_size_empty_inv. by rewrite lookup_empty in Hk.
  - simpl. rewrite bool_decide_false; last first.
    { intros ->%map_size_empty_inv. by rewrite lookup_empty in Hk. }
    unfold scan.
    pose proof (scan_lt_fold (range m).*2 (MaxUint16, EmptyString)) as Hscan.
    cbv zeta in Hscan.
    destruct Hscan as [Heq | (e' & Hin & Heq & Hlt)]; rewrite Heq; simpl.
    + rewrite (delete_id m EmptyString Hnamed). apply IH; eauto.
    + apply elem_of_range_values in Hin as [k' Hk'].
      rewrite (Hkey _ _ Hk'). apply IH.
      * by apply keyed_delete.
      * rewrite lookup_delete_ne; [done |]. intros ->. by rewrite Hnamed in Hk'.
      * exists k, e. split; [| done]. rewrite lookup_delete_ne; [done |].
        intros ->. rewrite Hk in Hk'. injection Hk' as <-. simpl in Hlt. lia.
Qed.

(** A sequence that starts with a nil entry cannot be written back. *)
Lemma restore_nil_first n l (m : gmap string E) :
  restore ename (replicate (S n) None ++ l) m = Panic.
Proof. done. Qed.

End RegistryFacts.


(** ** Hooks that have not run yet *)

Lemma unexecuted_NewHook nm d : unexecuted (NewHook nm d).
Proof. split; simpl; try done; by intros ? ? ?%lookup_empty_Some. Qed.

Lemma unexecuted_register h r : unexecuted h → unexecuted (register h r).
Proof.
  intros Hun. destruct r as [f | n]; unfold register.
  - destruct (hook_Function_inv h f) as (e & h' & -> & Hfail & Hok).
    destruct e as [e |]; [by rewrite Hfail |].
    destruct Hok as (Hname & _ & ->); [done |].
    destruct Hun. split; simpl; try done.
    + by apply keyed_insert.
    + by rewrite lookup_insert_ne.
  - destruct (hook_Notify_inv h n) as (e & h' & -> & Hfail & Hok).
    destruct e as [e |]; [by rewrite Hfail |].
    destruct Hok as (Hname & _ & ->); [done |].
    destruct Hun. split; simpl; try done.
    + by apply keyed_insert.
    + by rewrite lookup_insert_ne.
Qed.

Lemma unexecuted_register_all rs h : unexecuted h → unexecuted (register_all h rs).
Proof.
  revert h. induction rs as [| r rs IH]; intros h Hun; simpl; [done |].
  apply IH. by apply unexecuted_register.
Qed.

(** ** The recomputation *)

Lemma order_loop_returns_or_times_out `{MapRange} {E} (ename : E → string) eorder cmp
    fuel (m : gmap string E) ord :
  order_loop ename eorder cmp fuel m ord ≠ Panic.
Proof.
  revert m ord. induction fuel as [| fuel IH]; intros m ord; simpl;
    case_bool_decide; first [done | apply IH].
Qed.

(** The recomputation runs only when the flag is set. *)
Lemma hook_reorder_clean `{MapRange} fuel h :
  doReorder h = false → hook_reorder fuel h = Ret h.
Proof. unfold hook_reorder. by intros ->. Qed.

(** It never changes the flag. *)
Lemma hook_reorder_keeps_flag `{MapRange} fuel h h' :
  hook_reorder fuel h = Ret h' → doReorder h' = doReorder h.
Proof.
  unfold hook_reorder. destruct (doReorder h) eqn:Hd; simpl.
  - destruct (order_loop Function.Name _ _ _ _ _) as [r1 | |]; simpl; try done.
    destruct (order_loop Notify.Name _ _ _ _ _) as [r2 | |]; simpl; try done.
    destruct (restore Function.Name _ _) as [fs | |]; simpl; try done.
    destruct (restore Notify.Name _ _) as [ns | |]; simpl; try done.
    by intros [= <-].
  - by intros [= <-].
Qed.

Lemma functions_pass_first_comparison (f : Function.t) :
  (u16 (Function.Order f) <=? MaxUint16) = true.
Proof. apply Z.leb_le, uint16_le_max. Qed.

(** On a hook that has not run yet and has no notify at [math.MaxUint16],
    the recomputation returns, leaves both registries as they were and
    fills both sequences with all entries in non-decreasing [Order]. *)
Lemma hook_reorder_first `{MapRange} fuel h :
  unexecuted h →
  (∀ k n, notifies h !! k = Some n → u16 (Notify.Order n) < MaxUint16) →
  (size (functions h) ≤ fuel)%nat →
  (size (notifies h) ≤ fuel)%nat →
  ∃ fs ns,
    hook_reorder fuel h
    = Ret (mk_hook (name h) (desc h) (functions h) (notifies h) (doReorder h)
             (Some <$> fs) (Some <$> ns))
    ∧ fs ≡ₚ (map_to_list (functions h)).*2
    ∧ ns ≡ₚ (map_to_list (notifies h)).*2
    ∧ StronglySorted (order_le Function.Order) fs
    ∧ StronglySorted (order_le Notify.Order) ns.
Proof.
  intros Hun Hlt Hf Hn. pose proof Hun as [Hfk Hnk _ _ Hclean Hfo Hno].
  unfold hook_reorder. destruct (doReorder h) eqn:Hd; simpl.
  - rewrite Hfo, Hno. unfold clear_slice; simpl.
    destruct (order_loop_sorts Function.Name Function.Order Z.leb
                (λ a b, proj1 (Z.leb_le a b))
                (λ a b Hc, Z.lt_le_incl _ _ (proj1 (Z.leb_gt a b) Hc))
                fuel (functions h) [] Hfk
                (λ _ e _, functions_pass_first_comparison e) Hf)
      as (fs & -> & Hfp & Hfs).
    destruct (order_loop_sorts Notify.Name Notify.Order Z.ltb
                (λ a b Hc, Z.lt_le_incl _ _ (proj1 (Z.ltb_lt a b) Hc))
                (λ a b, proj1 (Z.ltb_ge a b))
                fuel (notifies h) [] Hnk
                (λ k e Hk, proj2 (Z.ltb_lt _ _) (Hlt k e Hk)) Hn)
      as (ns & -> & Hnp & Hns).
    simpl. rewrite (restore_all Function.Name (functions h) fs Hfk Hfp). simpl.
    rewrite (restore_all Notify.Name (notifies h) ns Hnk Hnp). simpl.
    by exists fs, ns.
  - destruct (Hclean eq_refl) as [Hfe Hne]. exists [], [].
    rewrite Hfe, Hne, map_to_list_empty. simpl.
    destruct h; simpl in *; subst. repeat split; constructor.
Qed.

Lemma exec_functions_Some ctx fs :
  exec_functions ctx (Some <$> fs) = Ret (function_event ctx <$> fs).
Proof.
  induction fs as [| f fs IH]; [done |].
  rewrite fmap_cons. cbn [exec_functions]. by rewrite IH.
Qed.

Lemma exec_notifies_Some ns :
  exec_notifies (Some <$> ns) = Ret (ns ≫= notify_events).
Proof.
  induction ns as [| n ns IH]; [done |].
  rewrite fmap_cons. cbn [exec_notifies]. by rewrite IH.
Qed.

(** ** Exec on a hook that has not run yet *)

Lemma hook_Exec_first `{MapRange} fuel ctx h :
  unexecuted h →
  (∀ k n, notifies h !! k = Some n → u16 (Notify.Order n) < MaxUint16) →
  (size (functions h) ≤ fuel)%nat →
  (size (notifies h) ≤ fuel)%nat →
  ∃ fs ns,
    hook_Exec fuel ctx h
    = Ret (mk_hook (name h) (desc h) (functions h) (notifies h) (doReorder h)
             (Some <$> fs) (Some <$> ns),
           (function_event ctx <$> fs) ++ (ns ≫= notify_events))
    ∧ fs ≡ₚ (map_to_list (functions h)).*2
    ∧ ns ≡ₚ (map_to_list (notifies h)).*2
    ∧ StronglySorted (order_le Function.Order) fs
    ∧ StronglySorted (order_le Notify.Order) ns.
Proof.
  intros Hun Hlt Hf Hn.
  destruct (hook_reorder_first fuel h Hun Hlt Hf Hn) as (fs & ns & Hre & Hrest).
  exists fs, ns. split; [| done].
  unfold hook_Exec. rewrite Hre. simpl.
  by rewrite exec_functions_Some, exec_notifies_Some.
Qed.

(** A notify at [math.MaxUint16] keeps the recomputation from returning. *)
Lemma hook_reorder_hangs `{MapRange} fuel h k n :
  unexecuted h →
  notifies h !! k = Some n →
  u16 (Notify.Order n) = MaxUint16 →
  hook_reorder fuel h = Timeout.
Proof.
  intros [Hfk Hnk _ Hnn Hclean _ _] Hk Hmax. unfold hook_reorder.
  destruct (doReorder h) eqn:Hd; simpl.
  - pose proof (order_loop_returns_or_times_out Function.Name Function.Order Z.leb
                  fuel (functions h) (clear_slice (functionOrder h))) as Hnp.
    destruct (order_loop Function.Name _ _ _ _ _) as [r1 | |]; simpl; try done.
    rewrite (order_loop_lt_stuck Notify.Name Notify.Order fuel (notifies h)); eauto.
  - destruct (Hclean eq_refl) as [_ Hne]. by rewrite Hne in Hk.
Qed.

Lemma hook_Exec_hangs `{MapRange} fuel ctx nm d rs k n :
  notifies (register_all (NewHook nm d) rs) !! k = Some n →
  u16 (Notify.Order n) = MaxUint16 →
  hook_Exec fuel ctx (register_all (NewHook nm d) rs) = Timeout.
Proof.
  intros Hk Hmax. unfold hook_Exec.
  rewrite (hook_reorder_hangs fuel _ k n); [done | | done | done].
  apply unexecuted_register_all, unexecuted_NewHook.
Qed.

(** After a first [Exec] on a hook with at least one entry, the next
    [Exec] recomputes again and panics while writing the entries back. *)
Lemma hook_Exec_again_panics `{MapRange} fuel ctx ctx' h :
  unexecuted h →
  functions h ≠ ∅ ∨ notifies h ≠ ∅ →
  (∀ k n, notifies h !! k = Some n → u16 (Notify.Order n) < MaxUint16) →
  (size (functions h) ≤ fuel)%nat →
  (size (notifies h) ≤ fuel)%nat →
  ∃ h' evs, hook_Exec fuel ctx h = Ret (h', evs)
    ∧ doReorder h' = true
    ∧ hook_Exec fuel ctx' h' = Panic.
Proof.
  intros Hun Hne Hlt Hf Hn.
  destruct (hook_Exec_first fuel ctx h Hun Hlt Hf Hn)
    as (fs & ns & Hex & Hfp & Hnp & _ & _).
  pose proof Hun as [Hfk Hnk _ _ Hclean _ _].
  assert (Hd : doReorder h = true).
  { destruct (doReorder h); [done |]. destruct (Hclean eq_refl). by destruct Hne. }
  eexists _, _. split; [exact Hex |]. split; [done |].
  unfold hook_Exec, hook_reorder. simpl. rewrite Hd. simpl.
  destruct (order_loop_sorts Function.Name Function.Order Z.leb
              (λ a b, proj1 (Z.leb_le a b))
              (λ a b Hc, Z.lt_le_incl _ _ (proj1 (Z.leb_gt a b) Hc))
              fuel (functions h) (clear_slice (Some <$> fs)) Hfk
              (λ _ e _, functions_pass_first_comparison e) Hf)
    as (fs' & -> & Hfp' & _).
  destruct (order_loop_sorts Notify.Name Notify.Order Z.ltb
              (λ a b Hc, Z.lt_le_incl _ _ (proj1 (Z.ltb_lt a b) Hc))
              (λ a b, proj1 (Z.ltb_ge a b))
              fuel (notifies h) (clear_slice (Some <$> ns)) Hnk
              (λ k e Hk, proj2 (Z.ltb_lt _ _) (Hlt k e Hk)) Hn)
    as (ns' & -> & Hnp' & _).
  simpl. unfold clear_slice. rewrite !length_fmap.
  destruct fs as [| f fs]; [| done].
  apply Permutation_nil_l in Hfp. rewrite <- Hfp in Hfp'.
  apply Permutation_nil_r in Hfp' as ->. simpl.
  destruct ns as [| n ns]; [| done].
  exfalso. destruct Hne as [Hne | Hne]; apply Hne, map_to_list_empty_iff.
  - symmetry in Hfp. by apply fmap_nil_inv in Hfp.
  - apply Permutation_nil_l in Hnp. symmetry in Hnp. by apply fmap_nil_inv in Hnp.
Qed.

(** ** Claims about the hook *)

(** C4. Registration: an empty name is rejected with the empty-name error;
    otherwise a nil body (nil channel) is rejected with the nil-body
    (nil-channel) error; otherwise a name that is already present, without
    [Overwrite], is rejected with the already-exists error that carries the
    name; otherwise the entry is inserted or replaced and the flag is set.
    A call that reports an error returns the hook it was given. *)
Theorem registration_contract (h : hook) (f : Function.t) (n : Notify.t) :
  ((Function.Name f = EmptyString →
      hook_Function (Some f) h = Ret (Some ErrFunctionNameEmpty, h))
   ∧ (Function.Name f ≠ EmptyString → Function.Func f = None →
      hook_Function (Some f) h = Ret (Some ErrFuncNil, h))
   ∧ (Function.Name f ≠ EmptyString → Function.Func f ≠ None →
      is_Some (functions h !! Function.Name f) → Function.Overwrite f = false →
      hook_Function (Some f) h
      = Ret (Some (Errorf_w ErrFunctionExists (quoted (Function.Name f))), h))
   ∧ (Function.Name f ≠ EmptyString → Function.Func f ≠ None →
      functions h !! Function.Name f = None ∨ Function.Overwrite f = true →
      hook_Function (Some f) h
      = Ret (None, mk_hook (name h) (desc h)
                     (<[Function.Name f := f]> (functions h)) (notifies h)
                     true (functionOrder h) (notifyOrder h)))
   ∧ (∀ e h', hook_Function (Some f) h = Ret (Some e, h') → h' = h))
  ∧
  ((Notify.Name n = EmptyString →
      hook_Notify (Some n) h = Ret (Some ErrNotifyNameEmpty, h))
   ∧ (Notify.Name n ≠ EmptyString → Notify.Chan n = None →
      hook_Notify (Some n) h = Ret (Some ErrChanNil, h))
   ∧ (Notify.Name n ≠ EmptyString → Notify.Chan n ≠ None →
      is_Some (notifies h !! Notify.Name n) → Notify.Overwrite n = false →
      hook_Notify (Some n) h
      = Ret (Some (Errorf_w ErrNotifyExists (quoted (Notify.Name n))), h))
   ∧ (Notify.Name n ≠ EmptyString → Notify.Chan n ≠ None →
      notifies h !! Notify.Name n = None ∨ Notify.Overwrite n = true →
      hook_Notify (Some n) h
      = Ret (None, mk_hook (name h) (desc h)
                     (functions h) (<[Notify.Name n := n]> (notifies h))
                     true (functionOrder h) (notifyOrder h)))
   ∧ (∀ e h', hook_Notify (Some n) h = Ret (Some e, h') → h' = h)).
Proof.
  split.
  - destruct (hook_Function_cases h f) as (H1 & H2 & H3 & H4).
    repeat split; try done.
    intros e h' Hr. destruct (hook_Function_inv h f) as (e0 & h0 & Hr0 & Hfail & _).
    rewrite Hr in Hr0. injection Hr0 as <- <-. by apply Hfail.
  - destruct (hook_Notify_cases h n) as (H1 & H2 & H3 & H4).
    repeat split; try done.
    intros e h' Hr. destruct (hook_Notify_inv h n) as (e0 & h0 & Hr0 & Hfail & _).
    rewrite Hr in Hr0. injection Hr0 as <- <-. by apply Hfail.
Qed.

(** The four outcomes of [Function], on the hook that already holds "a". *)
Lemma registration_contract_witness :
  let h := register (NewHook "h" "d") (RegFunction fn_a) in
  hook_Function (Some (Function.mk (Some 1%positive) EmptyString "x" false (U16 0 I) false)) h
  = Ret (Some ErrFunctionNameEmpty, h)
  ∧ hook_Function (Some (Function.mk None "c" "x" false (U16 0 I) false)) h
    = Ret (Some ErrFuncNil, h)
  ∧ hook_Function (Some fn_a) h
    = Ret (Some (Errorf_w ErrFunctionExists (quoted "a")), h)
  ∧ hook_Function (Some fn_b) h
    = Ret (None, mk_hook "h" "d" (<["b" := fn_b]> (functions h)) ∅ true [] []).
Proof.
  intros h.
  split; [| split; [| split]].
  - apply (registration_contract h
             (Function.mk (Some 1%positive) EmptyString "x" false (U16 0 I) false) nt_last).
    reflexivity.
  - apply (registration_contract h (Function.mk None "c" "x" false (U16 0 I) false) nt_last).
    + discriminate.
    + reflexivity.
  - apply (registration_contract h fn_a nt_last).
    + discriminate.
    + discriminate.
    + exists fn_a. vm_compute. reflexivity.
    + reflexivity.
  - apply (registration_contract h fn_b nt_last).
    + discriminate.
    + discriminate.
    + left. vm_compute. reflexivity.
Defined.

Lemma register_functions_other h r nm :
  nm ∉ accepted_functions h [r] →
  functions (register h r) !! nm = functions h !! nm.
Proof.
  destruct r as [f | n]; unfold register;
    cbn [accepted_functions accepted_notifies].
  - destruct (hook_Function_inv h f) as (e & h' & Hr & Hfail & Hok).
    rewrite Hr. destruct e as [e |]; [by rewrite Hfail |].
    destruct Hok as (_ & _ & ->); [done |]. simpl.
    intros Hnm%not_elem_of_cons. destruct Hnm as [Hnm _].
    by rewrite lookup_insert_ne.
  - intros _. destruct (hook_Notify_inv h n) as (e & h' & -> & Hfail & Hok).
    destruct e as [e |]; [by rewrite Hfail |].
    by destruct Hok as (_ & _ & ->).
Qed.

Lemma register_notifies_other h r nm :
  nm ∉ accepted_notifies h [r] →
  notifies (register h r) !! nm = notifies h !! nm.
Proof.
  destruct r as [f | n]; unfold register;
    cbn [accepted_functions accepted_notifies].
  - intros _. destruct (hook_Function_inv h f) as (e & h' & -> & Hfail & Hok).
    destruct e as [e |]; [by rewrite Hfail |].
    by destruct Hok as (_ & _ & ->).
  - destruct (hook_Notify_inv h n) as (e & h' & Hr & Hfail & Hok).
    rewrite Hr. destruct e as [e |]; [by rewrite Hfail |].
    destruct Hok as (_ & _ & ->); [done |]. simpl.
    intros Hnm%not_elem_of_cons. destruct Hnm as [Hnm _].
    by rewrite lookup_insert_ne.
Qed.

Lemma never_accepted_function rs h nm :
  nm ∉ accepted_functions h rs →
  functions (register_all h rs) !! nm = functions h !! nm.
Proof.
  revert h. induction rs as [| r rs IH]; intros h Hnm; [done |].
  cbn [accepted_functions] in Hnm. apply not_elem_of_app in Hnm as [Hr Hrs].
  cbn [register_all foldl]. unfold register_all in IH. rewrite IH by done.
  apply register_functions_other. cbn [accepted_functions]. by rewrite app_nil_r.
Qed.

Lemma never_accepted_notify rs h nm :
  nm ∉ accepted_notifies h rs →
  notifies (register_all h rs) !! nm = notifies h !! nm.
Proof.
  revert h. induction rs as [| r rs IH]; intros h Hnm; [done |].
  cbn [accepted_notifies] in Hnm. apply not_elem_of_app in Hnm as [Hr Hrs].
  cbn [register_all foldl]. unfold register_all in IH. rewrite IH by done.
  apply register_notifies_other. cbn [accepted_notifies]. by rewrite app_nil_r.
Qed.

(** C5. After an accepted registration of an entry, the lookup under its
    name returns that entry; a lookup returns the hook unchanged (and has no
    error result); a name that no accepted registration has used since the
    hook was created is reported as not found. *)
Theorem lookup_round_trip (h : hook) (nm : string) :
  (∀ f h', hook_Function (Some f) h = Ret (None, h') →
           hook_GetFunction (Function.Name f) h' = (Some f, h'))
  ∧ (∀ n h', hook_Notify (Some n) h = Ret (None, h') →
             hook_GetNotify (Notify.Name n) h' = (Some n, h'))
  ∧ (hook_GetFunction nm h).2 = h
  ∧ (hook_GetNotify nm h).2 = h
  ∧ (∀ nm0 d rs, h = register_all (NewHook nm0 d) rs →
       (nm ∉ accepted_functions (NewHook nm0 d) rs → (hook_GetFunction nm h).1 = None)
       ∧ (nm ∉ accepted_notifies (NewHook nm0 d) rs → (hook_GetNotify nm h).1 = None)).
Proof.
  repeat split; try done.
  - intros f h' Hr. destruct (hook_Function_inv h f) as (e & h0 & Hr0 & _ & Hok).
    rewrite Hr in Hr0. injection Hr0 as <- <-.
    destruct Hok as (_ & _ & ->); [done |].
    unfold hook_GetFunction; simpl. by rewrite lookup_insert_eq.
  - intros n h' Hr. destruct (hook_Notify_inv h n) as (e & h0 & Hr0 & _ & Hok).
    rewrite Hr in Hr0. injection Hr0 as <- <-.
    destruct Hok as (_ & _ & ->); [done |].
    unfold hook_GetNotify; simpl. by rewrite lookup_insert_eq.
  - intros Hnm. subst h. unfold hook_GetFunction; simpl.
    by rewrite never_accepted_function.
  - intros Hnm. subst h. unfold hook_GetNotify; simpl.
    by rewrite never_accepted_notify.
Qed.

Lemma lookup_round_trip_witness :
  let h := register (NewHook "h" "d") (RegFunction fn_a) in
  hook_GetFunction "b" (register h (RegFunction fn_b))
  = (Some fn_b, register h (RegFunction fn_b))
  ∧ (hook_GetFunction "b" h).1 = None.
Proof.
  intros h. split.
  - apply (lookup_round_trip h "b" ) with (f := fn_b). reflexivity.
  - apply (lookup_round_trip h "b") with (nm0 := "h") (d := "d") (rs := [RegFunction fn_a]).
    + reflexivity.
    + apply (bool_decide_unpack _). vm_compute. exact I.
Defined.

(** C2, as amended. On a hook that was filled by registration calls and has
    not run yet, and whose notifies all have an [Order] below
    [math.MaxUint16], [Exec] returns once the loops have had one round per
    entry; it starts or calls every registered function once, in
    non-decreasing [Order], and then sends every registered notify once, in
    non-decreasing [Order].  Nothing is said about entries of equal
    [Order]. *)
Theorem Exec_runs_in_Order `{MapRange} nm d rs ctx fuel :
  let h := register_all (NewHook nm d) rs in
  (∀ k n, notifies h !! k = Some n → u16 (Notify.Order n) < MaxUint16) →
  (size (functions h) ≤ fuel)%nat →
  (size (notifies h) ≤ fuel)%nat →
  ∃ fs ns h',
    hook_Exec fuel ctx h
    = Ret (h', (function_event ctx <$> fs) ++ (ns ≫= notify_events))
    ∧ fs ≡ₚ (map_to_list (functions h)).*2
    ∧ ns ≡ₚ (map_to_list (notifies h)).*2
    ∧ StronglySorted (order_le Function.Order) fs
    ∧ StronglySorted (order_le Notify.Order) ns.
Proof.
  intros h Hlt Hf Hn.
  destruct (hook_Exec_first fuel ctx h) as (fs & ns & Hex & Hrest); try done.
  { apply unexecuted_register_all, unexecuted_NewHook. }
  eexists fs, ns, _. split; [exact Hex | exact Hrest].
Qed.

(** The scenario of the specification: "a" at 10 and "b" at 5 run as b, a. *)
Lemma Exec_runs_in_Order_witness :
  let h := register_all (NewHook "h" "d")
             [RegFunction (Function.mk (Some 1%positive) "a" "x" false (U16 10 I) false);
              RegFunction (Function.mk (Some 2%positive) "b" "y" false (U16 5 I) false)] in
  ∃ fs ns h',
    @hook_Exec range_fwd 2 sample_ctx h
    = Ret (h', (function_event sample_ctx <$> fs) ++ (ns ≫= notify_events))
    ∧ fs ≡ₚ (map_to_list (functions h)).*2
    ∧ ns ≡ₚ (map_to_list (notifies h)).*2
    ∧ StronglySorted (order_le Function.Order) fs
    ∧ StronglySorted (order_le Notify.Order) ns.
Proof.
  intros h.
  apply (@Exec_runs_in_Order range_fwd "h" "d" _ sample_ctx 2).
  - intros k n. vm_compute. discriminate.
  - vm_compute. lia.
  - vm_compute. lia.
Defined.

Example Exec_scenario_b_before_a :
  ∃ h', @hook_Exec range_fwd 2 sample_ctx
          (register_all (NewHook "h" "d")
             [RegFunction (Function.mk (Some 1%positive) "a" "x" false (U16 10 I) false);
              RegFunction (Function.mk (Some 2%positive) "b" "y" false (U16 5 I) false)])
        = Ret (h', [EvCall (Function.mk (Some 2%positive) "b" "y" false (U16 5 I) false) sample_ctx;
                    EvCall (Function.mk (Some 1%positive) "a" "x" false (U16 10 I) false) sample_ctx]).
Proof. eexists. vm_compute. reflexivity. Qed.

(** With the traversal in the order of [map_to_list], "a" registered before
    "b" at the same [Order] runs after it. *)
Example Exec_tie_against_registration :
  ∃ h', @hook_Exec range_fwd 2 sample_ctx
          (register_all (NewHook "h" "d") [RegFunction fn_a; RegFunction fn_b])
        = Ret (h', [EvCall fn_b sample_ctx; EvCall fn_a sample_ctx]).
Proof. eexists. vm_compute. reflexivity. Qed.

(** With the reverse traversal the same hook runs "a" first: the order of a
    tie is not fixed by the hook. *)
Example Exec_tie_with_registration :
  ∃ h', @hook_Exec range_rev 2 sample_ctx
          (register_all (NewHook "h" "d") [RegFunction fn_a; RegFunction fn_b])
        = Ret (h', [EvCall fn_a sample_ctx; EvCall fn_b sample_ctx]).
Proof. eexists. vm_compute. reflexivity. Qed.

(** Registration order leaves no trace in the hook. *)
Lemma registration_order_forgotten :
  register_all (NewHook "h" "d") [RegFunction fn_a; RegFunction fn_b]
  = register_all (NewHook "h" "d") [RegFunction fn_b; RegFunction fn_a].
Proof.
  vm_compute. reflexivity.
Qed.

(** C2 as stated fails: whatever order the traversal of the map takes, the
    rule "equal [Order] runs in registration order" is broken by "a" then
    "b" or by "b" then "a", because both leave the same hook. *)
Lemma no_traversal_follows_registration : ¬ ∃ R : MapRange, ties_follow_registration R.
Proof.
  intros [R HR].
  destruct (@hook_Exec_first R 2 sample_ctx
              (register_all (NewHook "h" "d") [RegFunction fn_a; RegFunction fn_b]))
    as (fs & ns & Hex & _).
  { apply unexecuted_register_all, unexecuted_NewHook. }
  { intros k n. vm_compute. discriminate. }
  { vm_compute. lia. }
  { vm_compute. lia. }
  pose proof Hex as Hex'. rewrite registration_order_forgotten in Hex'.
  eapply (HR fn_a fn_b) in Hex; [| discriminate ..| reflexivity].
  eapply (HR fn_b fn_a) in Hex'; [| discriminate ..| reflexivity].
  rewrite Hex in Hex'. discriminate.
Qed.

(** C3 at the failing input: with one notify at 65535 the recomputation at
    the start of [Exec] never finishes, whatever the traversal order and
    however many rounds it is given. *)
Theorem Exec_hangs_on_MaxUint16_notify (R : MapRange) (fuel : nat) (ctx : OSSignal) :
  hook_Notify (Some nt_last) (NewHook "h" "d")
  = Ret (None, register (NewHook "h" "d") (RegNotify nt_last))
  ∧ hook_Exec fuel ctx (register (NewHook "h" "d") (RegNotify nt_last)) = Timeout.
Proof.
  split; [done |].
  apply (hook_Exec_hangs fuel ctx "h" "d" [RegNotify nt_last] "n" nt_last); done.
Qed.

(** The functions loop, which compares with [<=], handles the same value. *)
Example Exec_function_at_MaxUint16 :
  ∃ h', @hook_Exec range_fwd 1 sample_ctx
          (register (NewHook "h" "d")
             (RegFunction (Function.mk (Some 1%positive) "f" "x" false (U16 65535 I) false)))
        = Ret (h', [EvCall (Function.mk (Some 1%positive) "f" "x" false (U16 65535 I) false)
                      sample_ctx]).
Proof. eexists. vm_compute. reflexivity. Qed.

(** C9 at the failing input: after the first [Exec] on a hook with one
    function the flag is still set, and the second [Exec], with no
    registration in between, recomputes and panics. *)
Theorem second_Exec_recomputes (R : MapRange) (fuel : nat) (ctx : OSSignal) :
  ∃ h',
    hook_Exec (S fuel) ctx (register (NewHook "h" "d") (RegFunction fn_a))
    = Ret (h', [EvCall fn_a ctx])
    ∧ doReorder h' = true
    ∧ functionOrder h' = [Some fn_a]
    ∧ hook_Exec (S fuel) ctx h' = Panic.
Proof.
  set (h := register (NewHook "h" "d") (RegFunction fn_a)).
  assert (Hun : unexecuted h) by apply unexecuted_register, unexecuted_NewHook.
  assert (Hlt : ∀ k n, notifies h !! k = Some n → u16 (Notify.Order n) < MaxUint16)
    by (intros k n; vm_compute; discriminate).
  assert (Hf : (size (functions h) ≤ S fuel)%nat) by (vm_compute; lia).
  assert (Hn : (size (notifies h) ≤ S fuel)%nat) by (vm_compute; lia).
  destruct (hook_Exec_first (S fuel) ctx h Hun Hlt Hf Hn)
    as (fs & ns & Hex & Hfp & Hnp & _).
  change (functions h) with ({[ "a" := fn_a ]} : gmap string Function.t) in Hfp.
  change (notifies h) with (∅ : gmap string Notify.t) in Hnp.
  rewrite map_to_list_singleton in Hfp. rewrite map_to_list_empty in Hnp.
  apply Permutation_singleton_r in Hfp as ->. apply Permutation_nil_r in Hnp as ->.
  destruct (hook_Exec_again_panics (S fuel) ctx ctx h Hun) as (h' & evs & Hex' & Hd & Hp);
    try done.
  { left. vm_compute. discriminate. }
  rewrite Hex in Hex'. injection Hex' as <- <-.
  eexists. split; [exact Hex |]. done.
Qed.

(** ** The handler: registration *)

Lemma capture_spec (w : world) (sig : os_Signal) :
  capture w sig
  = let new := filter (λ s, s ∉ capturing (hd w)) [sig] in
    mk_world (hooks w)
      (set_capturing (capturing (hd w) ++ new) (hd w))
      (log w ++ (EvSignalNotify <$> new)).
Proof.
  unfold capture. rewrite filter_cons, filter_nil.
  case_bool_decide as Hin.
  - rewrite decide_False by (intros Hn; by apply Hn). simpl.
    rewrite !app_nil_r. by destruct w as [? [] ?].
  - by rewrite decide_True by done.
Qed.

(** The three captures of [setExit] add the termination signals that were
    not captured yet, in the order interrupt, terminate, quit. *)
Lemma capture_termination_signals (w : world) :
  foldl capture w termination_signals
  = let new := filter (λ s, s ∉ capturing (hd w)) termination_signals in
    mk_world (hooks w)
      (set_capturing (capturing (hd w) ++ new) (hd w))
      (log w ++ (EvSignalNotify <$> new)).
Proof.
  unfold termination_signals. simpl foldl.
  rewrite !capture_spec. cbv zeta. simpl hd. simpl log. simpl hooks.
  rewrite !filter_cons, !filter_nil. simpl capturing.
  repeat (let H := fresh in destruct (decide (_ ∉ _)) as [H | H]);
    simpl; rewrite ?app_nil_r, <- ?app_assoc; simpl; try reflexivity;
    exfalso;
    repeat match goal with
    | H : ¬ (_ ∉ _) |- _ => apply dec_stable in H
    | H : _ ∈ _ ++ _ |- _ => apply elem_of_app in H as [H | H]
    | H : _ ∉ _ ++ _ |- _ => apply not_elem_of_app in H as [? ?]
    | H : _ ∈ [_] |- _ => apply list_elem_of_singleton in H; try discriminate H
    | H : _ ∈ [] |- _ => by apply elem_of_nil in H
    end; try done.
Qed.

(** C6. [SetExit] and [Set]: a nil hook is rejected with the nil-hook error;
    otherwise an exit hook (a hook for the signal) that is already present
    is rejected with the already-exists error; otherwise the hook is stored
    and [signal.Notify] is issued for each of interrupt, terminate, quit
    (for the signal) that was not captured yet, which is then recorded as
    captured.  A call that reports an error returns the state it was
    given. *)
Theorem handler_registration_contract `{SignalNames}
    (w : world) (hook : Hook) (sig : syscall_Signal) :
  ((hook = None → handler_SetExit hook w = (Some ErrHookNil, w))
   ∧ (hook ≠ None → exitHook (hd w) ≠ None →
      handler_SetExit hook w = (Some ErrExitExists, w))
   ∧ (hook ≠ None → exitHook (hd w) = None →
      let new := filter (λ s, s ∉ capturing (hd w)) termination_signals in
      handler_SetExit hook w
      = (None, mk_world (hooks w)
                 (mk_handler hook (hookMap (hd w)) (capturing (hd w) ++ new)
                    (loopLock (hd w)) (exitLock (hd w)))
                 (log w ++ (EvSignalNotify <$> new))))
   ∧ (∀ e w', handler_SetExit hook w = (Some e, w') → w' = w))
  ∧
  ((hook = None → handler_Set (Some sig) hook w = Ret (Some ErrHookNil, w))
   ∧ (hook ≠ None → is_Some (hookMap (hd w) !! Some sig) →
      handler_Set (Some sig) hook w
      = Ret (Some (Errorf_w ErrSignalExists (Signal_String sig)), w))
   ∧ (hook ≠ None → hookMap (hd w) !! Some sig = None →
      let new := filter (λ s, s ∉ capturing (hd w)) [Some sig] in
      handler_Set (Some sig) hook w
      = Ret (None, mk_world (hooks w)
                     (mk_handler (exitHook (hd w)) (<[Some sig := hook]> (hookMap (hd w)))
                        (capturing (hd w) ++ new) (loopLock (hd w)) (exitLock (hd w)))
                     (log w ++ (EvSignalNotify <$> new))))
   ∧ (∀ e w', handler_Set (Some sig) hook w = Ret (Some e, w') → w' = w)).
Proof.
  unfold handler_SetExit, handler_Set, handler_setExit, handler_set.
  split; repeat split.
  - by intros ->.
  - intros Hh He. destruct hook; [| done]. by destruct (exitHook (hd w)).
  - intros Hh He. destruct hook; [| done]. rewrite He.
    by rewrite capture_termination_signals.
  - intros e w'. destruct hook; [| by intros [= _ <-]].
    destruct (exitHook (hd w)); by intros [= <-].
  - by intros ->.
  - intros Hh [x Hx]. destruct hook; [| done]. by rewrite Hx.
  - intros Hh Hx. destruct hook; [| done]. rewrite Hx.
    by rewrite capture_spec.
  - intros e w'. destruct hook; [| by intros [= _ <-]].
    destruct (hookMap (hd w) !! Some sig); simpl; by intros [= <-].
Qed.

Lemma handler_registration_contract_witness :
  let w0 := mk_world {[1%positive := NewHook "x" "y"]} newHandler [] in
  handler_SetExit (Some 1%positive) w0
  = (None, mk_world {[1%positive := NewHook "x" "y"]}
             (mk_handler (Some 1%positive) ∅ [Some SIGINT; Some SIGTERM; Some SIGQUIT]
                false false)
             [EvSignalNotify (Some SIGINT); EvSignalNotify (Some SIGTERM);
              EvSignalNotify (Some SIGQUIT)])
  ∧ handler_SetExit (Some 1%positive) (handler_SetExit (Some 1%positive) w0).2
    = (Some ErrExitExists, (handler_SetExit (Some 1%positive) w0).2)
  ∧ @handler_Set sample_names (Some SIGINT) None w0 = Ret (Some ErrHookNil, w0).
Proof.
  intros w0. split; [| split].
  - apply (@handler_registration_contract sample_names w0 (Some 1%positive) SIGINT);
      [discriminate | reflexivity].
  - apply (@handler_registration_contract sample_names
             (handler_SetExit (Some 1%positive) w0).2 (Some 1%positive) SIGINT);
      [discriminate | vm_compute; discriminate].
  - apply (@handler_registration_contract sample_names w0 None SIGINT). reflexivity.
Defined.

(** ** The handler: running hooks *)

Lemma exec_functions_dispatch ctx l evs :
  exec_functions ctx l = Ret evs → Forall (λ e, is_dispatch e = true) evs.
Proof.
  revert evs. induction l as [| [f |] l IH]; intros evs; simpl.
  - intros [= <-]. constructor.
  - destruct (exec_functions ctx l) as [evs' | |]; simpl; try done.
    intros [= <-]. constructor; [| by apply IH].
    unfold function_event. by destruct (Function.Concurrent f).
  - done.
Qed.

Lemma exec_notifies_dispatch l evs :
  exec_notifies l = Ret evs → Forall (λ e, is_dispatch e = true) evs.
Proof.
  revert evs. induction l as [| [n |] l IH]; intros evs; simpl.
  - intros [= <-]. constructor.
  - destruct (exec_notifies l) as [evs' | |]; simpl; try done.
    intros [= <-]. constructor.
    { by destruct (Notify.NonBlocking n). }
    apply Forall_app. split; [| by apply IH].
    destruct (Notify.DoneChan n); by repeat constructor.
  - done.
Qed.

Lemma hook_Exec_dispatch `{MapRange} fuel ctx h h' evs :
  hook_Exec fuel ctx h = Ret (h', evs) → Forall (λ e, is_dispatch e = true) evs.
Proof.
  unfold hook_Exec.
  destruct (hook_reorder fuel h) as [h1 | |]; simpl; try done.
  destruct (exec_functions ctx _) as [fe | |] eqn:Hfe; simpl; try done.
  destruct (exec_notifies _) as [ne | |] eqn:Hne; simpl; try done.
  intros [= <- <-]. apply Forall_app. split.
  - by eapply exec_functions_dispatch.
  - by eapply exec_notifies_dispatch.
Qed.

(** Running a hook through the interface leaves the handler alone and only
    adds dispatch events to the log. *)
Lemma Hook_Exec_inv `{MapRange} fuel hook ctx w w' :
  Hook_Exec fuel hook ctx w = Ret w' →
  hd w' = hd w
  ∧ ∃ evs, log w' = log w ++ evs ∧ Forall (λ e, is_dispatch e = true) evs.
Proof.
  unfold Hook_Exec. destruct hook as [l |]; [| done].
  destruct (hooks w !! l) as [hk |]; [| done].
  destruct (hook_Exec fuel ctx hk) as [[hk' evs] | |] eqn:Hex; simpl; try done.
  intros [= <-]. simpl. split; [done |]. exists evs. split; [done |].
  by eapply hook_Exec_dispatch.
Qed.

Lemma filter_dispatch_nil (P : event → bool) evs :
  (∀ e, is_dispatch e = true → P e = false) →
  Forall (λ e, is_dispatch e = true) evs →
  List.filter P evs = [].
Proof.
  intros HP. induction 1 as [| e evs He _ IH]; [done |].
  simpl. by rewrite (HP e He).
Qed.

Lemma dispatch_not_OsExit e : is_dispatch e = true → is_OsExit e = false.
Proof. by destruct e. Qed.
Lemma dispatch_not_ExitHookExec e : is_dispatch e = true → is_ExitHookExec e = false.
Proof. by destruct e. Qed.
Lemma dispatch_not_HookExec e : is_dispatch e = true → is_HookExec e = false.
Proof. by destruct e. Qed.

(** ** The exit sequence *)

#[local] Arguments Hook_Exec : simpl never.

Lemma handler_exit_locked `{MapRange} fuel code t sig w :
  exitLock (hd w) = true → handler_exit fuel code t sig w = Ret w.
Proof. unfold handler_exit. by intros ->. Qed.

(** The first run of the exit sequence, when the exit hook returns. *)
Lemma handler_exit_first `{MapRange} fuel code t sig w w' :
  exitLock (hd w) = false →
  handler_exit fuel code t sig w = Ret w' →
  hd w' = set_loopLock false (set_exitLock true (hd w))
  ∧ ∃ devs,
      Forall (λ e, is_dispatch e = true) devs
      ∧ log w'
        = log w ++ [EvExitChTrySend]
          ++ match exitHook (hd w) with
             | Some l => EvExitHookExec (Some l) (mkOSSignal sig true t code) :: devs
             | None => []
             end
          ++ [EvSignalReset (capturing (hd w)); EvOsExit code].
Proof.
  intros Hlock. unfold handler_exit. rewrite Hlock. simpl.
  destruct (exitHook (hd w)) as [l |] eqn:Hexit.
  - match goal with
    | |- context [Hook_Exec ?a ?b ?c ?d] =>
        destruct (Hook_Exec a b c d) as [w1 | |] eqn:Hex; simpl; try done
    end.
    apply Hook_Exec_inv in Hex as (Hhd & devs & Hlog & Hdevs).
    destruct w1 as [hs1 hd1 log1]. simpl in *. subst hd1 log1.
    intros [= <-]. simpl. split; [done |].
    exists devs. split; [done |]. by rewrite <- !app_assoc.
  - simpl. intros [= <-]. simpl. split; [done |]. exists []. split; [constructor |].
    by rewrite <- !app_assoc.
Qed.

Lemma handler_handleSignal_unfold `{MapRange} fuel sig w :
  exitLock (hd w) = false →
  handler_handleSignal fuel sig w
  = (w1 ←← match hookMap (hd w) !! sig with
           | Some hook =>
               Hook_Exec fuel hook (mkOSSignal sig (is_termination sig) ExitTypeSignal 0)
                 (emit (EvHookExec hook (mkOSSignal sig (is_termination sig) ExitTypeSignal 0)) w)
           | None => Ret w
           end ;;
     if is_termination sig then handler_exit fuel 0 ExitTypeSignal sig w1 else Ret w1).
Proof.
  intros Hlock. unfold handler_handleSignal. rewrite Hlock.
  by destruct (is_termination sig).
Qed.

(** The part of [handleSignal] before the exit sequence. *)
Lemma signal_hook_part `{MapRange} fuel sig ctx w w1 :
  match hookMap (hd w) !! sig with
  | Some hook => Hook_Exec fuel hook ctx (emit (EvHookExec hook ctx) w)
  | None => Ret w
  end = Ret w1 →
  hd w1 = hd w
  ∧ ∃ pre, log w1 = log w ++ pre
      ∧ List.filter is_HookExec pre
        = match hookMap (hd w) !! sig with
          | Some hook => [EvHookExec hook ctx]
          | None => []
          end
      ∧ List.filter is_OsExit pre = []
      ∧ List.filter is_ExitHookExec pre = [].
Proof.
  destruct (hookMap (hd w) !! sig) as [hook |].
  - intros (Hhd & devs & Hlog & Hdevs)%Hook_Exec_inv. simpl in *.
    split; [done |]. exists (EvHookExec hook ctx :: devs).
    rewrite Hlog, <- app_assoc. split; [done |]. simpl.
    rewrite (filter_dispatch_nil _ _ dispatch_not_HookExec Hdevs).
    rewrite (filter_dispatch_nil _ _ dispatch_not_OsExit Hdevs).
    by rewrite (filter_dispatch_nil _ _ dispatch_not_ExitHookExec Hdevs).
  - intros [= <-]. split; [done |]. exists []. by rewrite app_nil_r.
Qed.

(** The events of the first exit sequence, by kind. *)
Lemma handler_exit_first_events `{MapRange} fuel code t sig w w' :
  exitLock (hd w) = false →
  handler_exit fuel code t sig w = Ret w' →
  exitLock (hd w') = true
  ∧ ∃ evs, log w' = log w ++ evs
      ∧ List.filter is_OsExit evs = [EvOsExit code]
      ∧ List.filter is_HookExec evs = []
      ∧ List.filter is_ExitHookExec evs
        = match exitHook (hd w) with
          | Some l => [EvExitHookExec (Some l) (mkOSSignal sig true t code)]
          | None => []
          end.
Proof.
  intros Hlock Hex.
  destruct (handler_exit_first fuel code t sig w w' Hlock Hex) as (Hhd & devs & Hdevs & Hlog).
  rewrite Hhd. split; [done |]. eexists. split; [exact Hlog |].
  destruct (exitHook (hd w)) as [l |]; simpl; [| done].
  rewrite !List.filter_app. simpl.
  rewrite (filter_dispatch_nil _ _ dispatch_not_HookExec Hdevs).
  rewrite (filter_dispatch_nil _ _ dispatch_not_OsExit Hdevs).
  by rewrite (filter_dispatch_nil _ _ dispatch_not_ExitHookExec Hdevs).
Qed.

(** C7. [handleSignal] returns at once, changing nothing, while the exit is
    in progress.  Otherwise it runs the hook stored for that very signal, if
    there is one, with a context whose [Exit] flag says whether the signal
    is interrupt, terminate or quit and whose [ExitCode] is 0, and then runs
    the exit sequence with code 0 exactly when the signal is one of these
    three. *)
Theorem handleSignal_contract `{MapRange} (fuel : nat) (sig : os_Signal) (w : world) :
  let ctx := mkOSSignal sig (is_termination sig) ExitTypeSignal 0 in
  (exitLock (hd w) = true → handler_handleSignal fuel sig w = Ret w)
  ∧ (exitLock (hd w) = false →
     handler_handleSignal fuel sig w
     = (w1 ←← match hookMap (hd w) !! sig with
              | Some hook => Hook_Exec fuel hook ctx (emit (EvHookExec hook ctx) w)
              | None => Ret w
              end ;;
        if is_termination sig then handler_exit fuel 0 ExitTypeSignal sig w1 else Ret w1))
  ∧ (∀ w', exitLock (hd w) = false → handler_handleSignal fuel sig w = Ret w' →
     exitLock (hd w') = is_termination sig
     ∧ ∃ evs, log w' = log w ++ evs
         ∧ List.filter is_HookExec evs
           = match hookMap (hd w) !! sig with
             | Some hook => [EvHookExec hook ctx]
             | None => []
             end
         ∧ List.filter is_OsExit evs = if is_termination sig then [EvOsExit 0] else [])
  ∧ (is_termination sig = true
     ↔ sig = Some SIGINT ∨ sig = Some SIGTERM ∨ sig = Some SIGQUIT).
Proof.
  intros ctx. split; [| split; [| split]].
  - unfold handler_handleSignal. by intros ->.
  - apply handler_handleSignal_unfold.
  - intros w' Hlock. rewrite handler_handleSignal_unfold by done. fold ctx.
    destruct (match hookMap (hd w) !! sig with
              | Some hook => Hook_Exec fuel hook ctx (emit (EvHookExec hook ctx) w)
              | None => Ret w
              end) as [w1 | |] eqn:Hpart; simpl; try done.
    apply signal_hook_part in Hpart as (Hhd & pre & Hlog & Hpre & Hpre' & _).
    destruct (is_termination sig) eqn:Hterm.
    + intros Hex. apply handler_exit_first_events in Hex
        as (Hl & evs & Hlog' & Hos & Hhe & _); [| by rewrite Hhd].
      split; [done |]. exists (pre ++ evs).
      rewrite Hlog', Hlog, <- app_assoc. split; [done |].
      rewrite !List.filter_app, Hpre, Hpre', Hos, Hhe. by rewrite app_nil_r.
    + intros [= <-]. rewrite Hhd. split; [done |]. by exists pre.
  - unfold is_termination. rewrite !orb_true_iff, !bool_decide_eq_true. tauto.
Qed.

(** Once the latch is set, neither kind of call does anything. *)
Lemma run_call_locked `{MapRange} fuel c w :
  exitLock (hd w) = true → run_call fuel c w = Ret w.
Proof.
  intros Hlock. destruct c as [sig | code]; simpl.
  - unfold handler_handleSignal. by rewrite Hlock.
  - by apply handler_exit_locked.
Qed.

Lemma run_calls_locked `{MapRange} fuel cs w :
  exitLock (hd w) = true → run_calls fuel cs w = Ret w.
Proof.
  intros Hlock. induction cs as [| c cs IH]; simpl; [done |].
  by rewrite run_call_locked.
Qed.

(** A call that reaches the exit sequence with the latch open runs it. *)
Lemma run_call_first `{MapRange} fuel c w w1 :
  exitLock (hd w) = false →
  exit_triggering c →
  run_call fuel c w = Ret w1 →
  exitLock (hd w1) = true
  ∧ ∃ evs, log w1 = log w ++ evs
      ∧ length (List.filter is_OsExit evs) = 1%nat
      ∧ length (List.filter is_ExitHookExec evs)
        = if exitHook (hd w) is Some _ then 1%nat else 0%nat.
Proof.
  intros Hlock Htrig. destruct c as [sig | code]; simpl in *.
  - rewrite handler_handleSignal_unfold by done. rewrite Htrig.
    destruct (match hookMap (hd w) !! sig with
              | Some hook => Hook_Exec fuel hook _ _
              | None => Ret w
              end) as [w0 | |] eqn:Hpart; simpl; try done.
    apply signal_hook_part in Hpart as (Hhd & pre & Hlog & _ & Hpre & Hpre').
    intros Hex. apply handler_exit_first_events in Hex
      as (Hl & evs & Hlog' & Hos & _ & Hxe); [| by rewrite Hhd].
    split; [done |]. exists (pre ++ evs).
    rewrite Hlog', Hlog, <- app_assoc. split; [done |].
    rewrite !List.filter_app, Hpre, Hpre', Hos, Hxe, Hhd.
    by destruct (exitHook (hd w)).
  - unfold handler_Exit. intros Hex.
    apply handler_exit_first_events in Hex as (Hl & evs & Hlog' & Hos & _ & Hxe); [| done].
    split; [done |]. exists evs. split; [done |]. rewrite Hos, Hxe.
    by destruct (exitHook (hd w)).
Qed.

(** When the first call returns *)

Lemma Hook_Exec_returns `{MapRange} fuel hook ctx w :
  runnable fuel w hook →
  ∃ w', Hook_Exec fuel hook ctx w = Ret w'
    ∧ hd w' = hd w
    ∧ ∀ l', hook ≠ Some l' → hooks w' !! l' = hooks w !! l'.
Proof.
  intros (l & hk & -> & Hl & Hun & Hlt & Hf & Hn).
  destruct (hook_Exec_first fuel ctx hk Hun Hlt Hf Hn) as (fs & ns & Hex & _).
  unfold Hook_Exec. rewrite Hl, Hex. simpl.
  eexists. split; [done |]. split; [done |]. simpl.
  intros l' Hne. rewrite lookup_insert_ne; [done |]. by intros ->.
Qed.

Lemma runnable_elsewhere fuel w w' hook :
  runnable fuel w hook →
  (∀ l, hook = Some l → hooks w' !! l = hooks w !! l) →
  runnable fuel w' hook.
Proof.
  intros (l & hk & -> & Hl & Hrest) Hsame.
  exists l, hk. split; [done |]. split; [| done]. by rewrite Hsame.
Qed.

Lemma handler_exit_returns `{MapRange} fuel code t sig w :
  exitHook (hd w) = None ∨ runnable fuel w (exitHook (hd w)) →
  ∃ w', handler_exit fuel code t sig w = Ret w'.
Proof.
  intros Hready. unfold handler_exit. destruct (exitLock (hd w)); [by eexists |].
  simpl. destruct (exitHook (hd w)) as [l |] eqn:He.
  - destruct Hready as [? | Hrun]; [done |].
    match goal with
    | |- context [Hook_Exec ?a ?b ?c ?d] =>
        destruct (Hook_Exec_returns a b c d) as (w1 & -> & _)
    end.
    + eapply runnable_elsewhere; [exact Hrun | done].
    + simpl. by eexists.
  - simpl. by eexists.
Qed.

Lemma run_call_returns `{MapRange} fuel c w :
  first_call_ready fuel c w → ∃ w1, run_call fuel c w = Ret w1.
Proof.
  intros [Hexit Hsig]. destruct c as [sig | code]; simpl.
  - destruct (exitLock (hd w)) eqn:Hl.
    { unfold handler_handleSignal. rewrite Hl. by eexists. }
    rewrite handler_handleSignal_unfold by done.
    destruct Hsig as [-> | (hook & -> & Hrun & Hne)]; simpl.
    + destruct (is_termination sig); [| by eexists].
      by apply handler_exit_returns.
    + match goal with
      | |- context [Hook_Exec ?a ?b ?c ?d] =>
          destruct (Hook_Exec_returns a b c d) as (w1 & -> & Hhd & Hother)
      end.
      { eapply runnable_elsewhere; [exact Hrun | done]. }
      simpl. destruct (is_termination sig); [| by eexists].
      apply handler_exit_returns. rewrite Hhd. simpl.
      destruct Hexit as [He | Hrx]; [by left | right].
      eapply runnable_elsewhere; [exact Hrx |].
      intros l Hl'. simpl in Hother. rewrite Hother; [done |].
      intros ->. by rewrite Hl' in Hne.
  - by apply handler_exit_returns.
Qed.

(** X18. The latch of the exit sequence.  From a state in which the exit
    is not in progress, take any sequence of calls whose first one reaches
    the exit sequence (a signal of the termination class handled by
    [handleSignal], or a manual [Exit]).
    The whole sequence does what its first call does.  That call returns
    when the hooks it executes can run; when it returns, the latch is set, [os.Exit] has been called once, the exit hook, if one
    is set, has been executed once by the exit sequence, and any further run
    of the exit sequence returns at once with the state unchanged. *)
Theorem exit_sequence_runs_once `{MapRange}
    (fuel : nat) (c : handler_call) (cs : list handler_call) (w : world) :
  exitLock (hd w) = false →
  exit_triggering c →
  run_calls fuel (c :: cs) w = run_call fuel c w
  ∧ (first_call_ready fuel c w → ∃ w1, run_call fuel c w = Ret w1)
  ∧ ∀ w1, run_call fuel c w = Ret w1 →
      exitLock (hd w1) = true
      ∧ (∃ evs, log w1 = log w ++ evs
           ∧ length (List.filter is_OsExit evs) = 1%nat
           ∧ length (List.filter is_ExitHookExec evs)
             = if exitHook (hd w) is Some _ then 1%nat else 0%nat)
      ∧ (∀ code t sig, handler_exit fuel code t sig w1 = Ret w1)
      ∧ (∀ c', run_call fuel c' w1 = Ret w1).
Proof.
  intros Hlock Hc. split; [| split; [apply run_call_returns |]].
  - simpl. destruct (run_call fuel c w) as [w1 | |] eqn:Hrun; simpl; try done.
    apply run_calls_locked.
    by destruct (run_call_first fuel c w w1 Hlock Hc Hrun) as [? _].
  - intros w1 Hrun.
    destruct (run_call_first fuel c w w1 Hlock Hc Hrun) as [Hl Hevs].
    split; [done |]. split; [done |]. split.
    + intros. by apply handler_exit_locked.
    + intros. by apply run_call_locked.
Qed.

(** An interrupt, a manual exit and a terminate, with "a" on the exit hook. *)
Lemma exit_sequence_runs_once_witness :
  let w := mk_world {[1%positive := register (NewHook "exit" "x") (RegFunction fn_a)]}
             (mk_handler (Some 1%positive) ∅ [Some SIGINT; Some SIGTERM; Some SIGQUIT]
                false false) [] in
  let cs := [CallExit 3; CallHandleSignal (Some SIGTERM)] in
  @run_calls range_fwd 2 (CallHandleSignal (Some SIGINT) :: cs) w
  = @run_call range_fwd 2 (CallHandleSignal (Some SIGINT)) w
  ∧ @run_call range_fwd 2 (CallHandleSignal (Some SIGINT)) w
    = Ret (mk_world
             {[1%positive := mk_hook "exit" "x" {["a" := fn_a]} ∅ true [Some fn_a] []]}
             (mk_handler (Some 1%positive) ∅ [Some SIGINT; Some SIGTERM; Some SIGQUIT]
                false true)
             [EvExitChTrySend;
              EvExitHookExec (Some 1%positive)
                (mkOSSignal (Some SIGINT) true ExitTypeSignal 0);
              EvCall fn_a (mkOSSignal (Some SIGINT) true ExitTypeSignal 0);
              EvSignalReset [Some SIGINT; Some SIGTERM; Some SIGQUIT];
              EvOsExit 0]).
Proof.
  intros w cs. split.
  - apply (@exit_sequence_runs_once range_fwd 2 (CallHandleSignal (Some SIGINT)) cs w).
    + reflexivity.
    + reflexivity.
  - vm_compute. reflexivity.
Defined.

(** ** Lookup-or-create *)

Lemma alloc_hook_fresh hk w :
  ∃ l, hooks w !! l = None
    ∧ alloc_hook hk w = (Some l, mk_world (<[l := hk]> (hooks w)) (hd w) (log w)).
Proof.
  exists (fresh (dom (hooks w))). split; [| done].
  apply not_elem_of_dom, is_fresh.
Qed.

Lemma handler_setExit_fresh l w :
  exitHook (hd w) = None →
  handler_setExit (Some l) w
  = (None, mk_world (hooks w)
             (mk_handler (Some l) (hookMap (hd w))
                (capturing (hd w) ++ filter (λ s, s ∉ capturing (hd w)) termination_signals)
                (loopLock (hd w)) (exitLock (hd w)))
             (log w ++ (EvSignalNotify <$> filter (λ s, s ∉ capturing (hd w)) termination_signals))).
Proof.
  intros He. unfold handler_setExit. rewrite He.
  by rewrite capture_termination_signals.
Qed.

Lemma handler_set_fresh `{SignalNames} sig l w :
  hookMap (hd w) !! sig = None →
  handler_set sig (Some l) w
  = Ret (None, mk_world (hooks w)
                 (mk_handler (exitHook (hd w)) (<[sig := Some l]> (hookMap (hd w)))
                    (capturing (hd w) ++ filter (λ s, s ∉ capturing (hd w)) [sig])
                    (loopLock (hd w)) (exitLock (hd w)))
                 (log w ++ (EvSignalNotify <$> filter (λ s, s ∉ capturing (hd w)) [sig]))).
Proof.
  intros Hs. unfold handler_set. rewrite Hs. by rewrite capture_spec.
Qed.

(** The invariant behind the non-nil results: it holds for a new handler
    and every method that touches the signal map keeps it. *)
Lemma hookMap_nonnil_new hs evs : hookMap_nonnil (mk_world hs newHandler evs).
Proof. intros sig hook. simpl. by rewrite lookup_empty. Qed.

Lemma hookMap_nonnil_same w w' :
  hookMap (hd w') = hookMap (hd w) → hookMap_nonnil w → hookMap_nonnil w'.
Proof. unfold hookMap_nonnil. by intros ->. Qed.

Lemma hookMap_nonnil_set `{SignalNames} sig hook w e w' :
  handler_set sig hook w = Ret (e, w') → hookMap_nonnil w → hookMap_nonnil w'.
Proof.
  unfold handler_set. destruct hook as [l |]; [| by intros [= _ <-]].
  destruct (hookMap (hd w) !! sig) eqn:Hs.
  - destruct (os_Signal_String sig); simpl; try done. by intros [= _ <-].
  - intros [= _ <-] Hinv sig' hook'. rewrite capture_spec. simpl.
    rewrite lookup_insert_Some. intros [[_ <-] | [_ Hin]]; [done | by eapply Hinv].
Qed.

Lemma hookMap_nonnil_setExit hook w :
  hookMap_nonnil w → hookMap_nonnil (handler_setExit hook w).2.
Proof.
  unfold handler_setExit. destruct hook as [l |]; [| done].
  destruct (exitHook (hd w)); [done |]. cbn [snd].
  by rewrite capture_termination_signals.
Qed.

Lemma hookMap_nonnil_run_call `{MapRange} fuel c w w' :
  run_call fuel c w = Ret w' → hookMap_nonnil w → hookMap_nonnil w'.
Proof.
  assert (Hexit : ∀ code t sig w w',
            handler_exit fuel code t sig w = Ret w' → hookMap (hd w') = hookMap (hd w)).
  { intros code t sig w0 w0' Hex. destruct (exitLock (hd w0)) eqn:Hl.
    - rewrite handler_exit_locked in Hex by done. by injection Hex as <-.
    - apply handler_exit_first in Hex as [-> _]; done. }
  intros Hrun. apply hookMap_nonnil_same.
  destruct c as [sig | code]; simpl in Hrun; [| by eapply Hexit].
  destruct (exitLock (hd w)) eqn:Hl.
  { unfold handler_handleSignal in Hrun. rewrite Hl in Hrun. by injection Hrun as <-. }
  rewrite handler_handleSignal_unfold in Hrun by done.
  destruct (match hookMap (hd w) !! sig with
            | Some hook => Hook_Exec fuel hook _ _
            | None => Ret w
            end) as [w0 | |] eqn:Hpart; simpl in Hrun; try done.
  apply signal_hook_part in Hpart as (Hhd & _).
  destruct (is_termination sig).
  - apply Hexit in Hrun. by rewrite Hrun, Hhd.
  - injection Hrun as <-. by rewrite Hhd.
Qed.

(** C8. [GetsExit] and [Gets] return a non-nil hook.  If one is already
    stored (as the exit hook, for the signal) it is returned and nothing
    changes; otherwise a default hook is created at a location that was not
    in use, registered (as the exit hook, for the signal) and returned.
    Registering it is what [setExit] and [set] do: the hook is stored and
    [signal.Notify] is issued for each of interrupt, terminate, quit (for
    the signal) that was not captured yet, which is then recorded as
    captured; the lock flags and everything else stay as they were. *)
Theorem Gets_contract `{SignalNames} (w : world) (sig : syscall_Signal) :
  hookMap_nonnil w →
  (∃ l w', handler_GetsExit w = (Some l, w')
     ∧ (exitHook (hd w) = Some l ∧ w' = w
        ∨ exitHook (hd w) = None ∧ hooks w !! l = None
          ∧ w' = mk_world
                   (<[l := NewHook "exit" "Handle program exit"]> (hooks w))
                   (mk_handler (Some l) (hookMap (hd w))
                      (capturing (hd w)
                       ++ filter (λ s, s ∉ capturing (hd w)) termination_signals)
                      (loopLock (hd w)) (exitLock (hd w)))
                   (log w
                    ++ (EvSignalNotify
                          <$> filter (λ s, s ∉ capturing (hd w)) termination_signals))))
  ∧ (∃ l w', handler_Gets (Some sig) w = Ret (Some l, w')
       ∧ hookMap_nonnil w'
       ∧ (hookMap (hd w) !! Some sig = Some (Some l) ∧ w' = w
          ∨ hookMap (hd w) !! Some sig = None ∧ hooks w !! l = None
            ∧ w' = mk_world
                     (<[l := NewHook
                               ("signal." +:+ ReplaceAll_space_underscore (Signal_String sig))
                               ("Handle " +:+ Signal_String sig +:+ " signal")]> (hooks w))
                     (mk_handler (exitHook (hd w))
                        (<[Some sig := Some l]> (hookMap (hd w)))
                        (capturing (hd w)
                         ++ filter (λ s, s ∉ capturing (hd w)) [Some sig])
                        (loopLock (hd w)) (exitLock (hd w)))
                     (log w
                      ++ (EvSignalNotify
                            <$> filter (λ s, s ∉ capturing (hd w)) [Some sig])))).
Proof.
  intros Hinv. split.
  - unfold handler_GetsExit. destruct (exitHook (hd w)) as [l |] eqn:He.
    + exists l, w. split; [done |]. by left.
    + destruct (alloc_hook_fresh (NewHook "exit" "Handle program exit") w)
        as (l & Hfresh & ->).
      rewrite handler_setExit_fresh by done.
      cbn [fst snd hd hooks log hookMap exitHook capturing loopLock exitLock].
      eexists l, _. split; [done |]. right. done.
  - unfold handler_Gets. destruct (hookMap (hd w) !! Some sig) as [hook |] eqn:Hs.
    + destruct hook as [l |]; [| by destruct (Hinv _ _ Hs)].
      exists l, w. split; [done |]. split; [done |]. by left.
    + cbn [os_Signal_String bind].
      destruct (alloc_hook_fresh
                  (NewHook ("signal." +:+ ReplaceAll_space_underscore (Signal_String sig))
                           ("Handle " +:+ Signal_String sig +:+ " signal")) w)
        as (l & Hfresh & ->).
      rewrite handler_set_fresh by done.
      cbn [bind fst snd hd hooks log hookMap exitHook capturing loopLock exitLock].
      rewrite lookup_insert_eq. cbn [default].
      eexists l, _. split; [done |]. split.
      * intros sig' hook'. cbn [hd hookMap]. rewrite lookup_insert_Some.
        intros [[_ <-] | [_ Hin]]; [done | by eapply Hinv].
      * right. done.
Qed.

(** On a new handler [GetsExit] captures the three termination signals and
    [Gets] captures its signal. *)
Lemma Gets_contract_witness :
  let w := mk_world ∅ newHandler [] in
  (∃ l w', handler_GetsExit w = (Some l, w')
     ∧ (exitHook (hd w) = Some l ∧ w' = w
        ∨ exitHook (hd w) = None ∧ hooks w !! l = None
          ∧ w' = mk_world
                   (<[l := NewHook "exit" "Handle program exit"]> (hooks w))
                   (mk_handler (Some l) ∅ [Some SIGINT; Some SIGTERM; Some SIGQUIT]
                      false false)
                   [EvSignalNotify (Some SIGINT); EvSignalNotify (Some SIGTERM);
                    EvSignalNotify (Some SIGQUIT)]))
  ∧ (∃ l w', @handler_Gets sample_names (Some 10) w = Ret (Some l, w')
       ∧ hookMap_nonnil w'
       ∧ (hookMap (hd w) !! Some 10 = Some (Some l) ∧ w' = w
          ∨ hookMap (hd w) !! Some 10 = None ∧ hooks w !! l = None
            ∧ w' = mk_world
                     (<[l := NewHook ("signal." +:+ ReplaceAll_space_underscore "signal")
                                     ("Handle " +:+ "signal" +:+ " signal")]> (hooks w))
                     (mk_handler None {[ Some 10 := Some l ]} [Some 10] false false)
                     [EvSignalNotify (Some 10)])).
Proof.
  intros w. apply (@Gets_contract sample_names w 10).
  intros sig hook. vm_compute. discriminate.
Defined.

(** [handleSignal] on a user signal with a hook, and on a latched handler. *)
Lemma handleSignal_contract_witness :
  let w := mk_world {[1%positive := register (NewHook "usr" "x") (RegFunction fn_a)]}
             (mk_handler None {[Some 10 := Some 1%positive]} [Some 10] true false) [] in
  let w_locked := with_hd (set_exitLock true) w in
  @handler_handleSignal range_fwd 1 (Some 10) w_locked = Ret w_locked
  ∧ @handler_handleSignal range_fwd 1 (Some 10) w
    = Ret (mk_world
             {[1%positive := mk_hook "usr" "x" {["a" := fn_a]} ∅ true [Some fn_a] []]}
             (hd w)
             [EvHookExec (Some 1%positive) (mkOSSignal (Some 10) false ExitTypeSignal 0);
              EvCall fn_a (mkOSSignal (Some 10) false ExitTypeSignal 0)]).
Proof.
  intros w w_locked. split.
  - apply (@handleSignal_contract range_fwd 1 (Some 10) w_locked). reflexivity.
  - destruct (@handleSignal_contract range_fwd 1 (Some 10) w) as (_ & Hrun & _).
    rewrite Hrun by reflexivity. vm_compute. reflexivity.
Defined.

(** ** What the unchanged flag does to the handler *)

(** A hook for a signal outside the termination class runs on the first
    delivery and panics on the second. *)
Example second_delivery_panics :
  let w := mk_world {[1%positive := register (NewHook "usr" "x") (RegFunction fn_a)]}
             (mk_handler None {[Some 10 := Some 1%positive]} [Some 10] true false) [] in
  (∃ w1, @run_calls range_fwd 1 [CallHandleSignal (Some 10)] w = Ret w1)
  ∧ @run_calls range_fwd 1 [CallHandleSignal (Some 10); CallHandleSignal (Some 10)] w
    = Panic.
Proof. split; [eexists |]; vm_compute; reflexivity. Qed.

(** With a notify at 65535 on the exit hook, [Exit] never gets to
    [os.Exit]. *)
Example exit_hangs_on_MaxUint16_notify (R : MapRange) (fuel : nat) :
  @run_call R fuel (CallExit 0)
    (mk_world {[1%positive := register (NewHook "exit" "x") (RegNotify nt_last)]}
       (mk_handler (Some 1%positive) ∅ [] false false) [])
  = Timeout.
Proof.
  unfold run_call, handler_Exit, handler_exit, Hook_Exec. simpl.
  rewrite lookup_singleton_eq.
  by rewrite (hook_Exec_hangs fuel _ "exit" "x" [RegNotify nt_last] "n" nt_last).
Qed.

(** * Further properties of the hook *)

Section LoopFacts.
Context `{MapRange} {E : Type}.
Variable ename : E → string.
Variable eorder : E → uint16.
Variable cmp : Z → Z → bool.

(** More rounds do not change the result of a loop that finished. *)
Lemma order_loop_more_fuel fuel fuel' (m : gmap string E) ord r :
  order_loop ename eorder cmp fuel m ord = Ret r →
  (fuel ≤ fuel')%nat →
  order_loop ename eorder cmp fuel' m ord = Ret r.
Proof.
  revert fuel' m ord. induction fuel as [| fuel IH]; intros fuel' m ord Hr Hle.
  - simpl in Hr. case_bool_decide as Hsz; [| done].
    destruct fuel'; simpl; by rewrite bool_decide_true.
  - destruct fuel' as [| fuel']; [lia |]. simpl in *.
    case_bool_decide; [done |]. apply IH; [done | lia].
Qed.

(** A loop that finished emptied the map and only appended to the
    sequence, at least one element when the map was not empty. *)
Lemma order_loop_appends fuel (m : gmap string E) ord m' ord' :
  order_loop ename eorder cmp fuel m ord = Ret (m', ord') →
  m' = ∅ ∧ ∃ suf, ord' = ord ++ suf ∧ (m ≠ ∅ → suf ≠ []).
Proof.
  revert m ord. induction fuel as [| fuel IH]; intros m ord; simpl.
  - case_bool_decide as Hsz; [| done]. intros [= <- <-].
    apply map_size_empty_inv in Hsz as ->. split; [done |].
    exists []. by rewrite app_nil_r.
  - case_bool_decide as Hsz.
    + intros [= <- <-]. apply map_size_empty_inv in Hsz as ->. split; [done |].
      exists []. by rewrite app_nil_r.
    + intros Hr. apply IH in Hr as (-> & suf & -> & _). split; [done |].
      eexists (_ :: suf). rewrite <- app_assoc. split; [done | done].
Qed.

(** Writing back never leaves an empty map behind, unless there was nothing
    to write and nothing there. *)
Lemma restore_nonempty ord (m m' : gmap string E) :
  restore ename ord m = Ret m' → m ≠ ∅ ∨ ord ≠ [] → m' ≠ ∅.
Proof.
  revert m. induction ord as [| [e |] ord IH]; intros m; simpl.
  - intros [= <-] [? | ?]; done.
  - intros Hr _. apply (IH _ Hr). left. apply insert_non_empty.
  - done.
Qed.

Lemma restore_cleared_panics (old : list (option E)) suf (m : gmap string E) :
  old ≠ [] → restore ename (clear_slice old ++ suf) m = Panic.
Proof. by destruct old. Qed.

(** ** Which entry a round selects *)

Lemma scan_step_skips l (st : Z * string) :
  (∀ x, x ∈ l → cmp (u16 (eorder x)) st.1 = false) →
  foldl (scan_step ename eorder cmp) st l = st.
Proof.
  revert st. induction l as [| x l IH]; intros st Hskip; simpl; [done |].
  unfold scan_step at 2. rewrite Hskip by left. apply IH.
  intros y Hy. apply Hskip. by right.
Qed.

Lemma scan_stays_above l (st : Z * string) e :
  cmp (u16 (eorder e)) st.1 = true →
  (∀ x, x ∈ l → cmp (u16 (eorder e)) (u16 (eorder x)) = true) →
  cmp (u16 (eorder e)) (foldl (scan_step ename eorder cmp) st l).1 = true.
Proof.
  revert st. induction l as [| x l IH]; intros st Hst Hall; simpl; [done |].
  apply IH.
  - unfold scan_step. destruct (cmp (u16 (eorder x)) st.1); simpl; [| done].
    apply Hall. left.
  - intros y Hy. apply Hall. by right.
Qed.

Lemma scan_selects l1 e l2 :
  (∀ x, x ∈ l1 → cmp (u16 (eorder e)) (u16 (eorder x)) = true) →
  cmp (u16 (eorder e)) MaxUint16 = true →
  (∀ x, x ∈ l2 → cmp (u16 (eorder x)) (u16 (eorder e)) = false) →
  foldl (scan_step ename eorder cmp) (MaxUint16, EmptyString) (l1 ++ e :: l2)
  = (u16 (eorder e), ename e).
Proof.
  intros Hbefore Hmax Hafter. rewrite foldl_app. simpl.
  unfold scan_step at 2.
  rewrite (scan_stays_above l1 (MaxUint16, EmptyString) e Hmax Hbefore).
  by apply scan_step_skips.
Qed.

End LoopFacts.

(** X1. In each round of the recomputation, among the entries of least
    [Order] the functions loop takes the one the traversal visits last and
    the notifies loop takes the one it visits first. *)
Theorem round_selects_last_function_first_notify `{MapRange}
    (fm : gmap string Function.t) (nm : gmap string Notify.t)
    (f : Function.t) (fl1 fl2 : list Function.t)
    (n : Notify.t) (nl1 nl2 : list Notify.t) :
  ((range fm).*2 = fl1 ++ f :: fl2 →
   (∀ x, x ∈ fl1 → u16 (Function.Order f) ≤ u16 (Function.Order x)) →
   (∀ x, x ∈ fl2 → u16 (Function.Order f) < u16 (Function.Order x)) →
   scan Function.Name Function.Order Z.leb fm
   = (u16 (Function.Order f), Function.Name f))
  ∧ ((range nm).*2 = nl1 ++ n :: nl2 →
     (∀ x, x ∈ nl1 → u16 (Notify.Order n) < u16 (Notify.Order x)) →
     (∀ x, x ∈ nl2 → u16 (Notify.Order n) ≤ u16 (Notify.Order x)) →
     u16 (Notify.Order n) < MaxUint16 →
     scan Notify.Name Notify.Order Z.ltb nm
     = (u16 (Notify.Order n), Notify.Name n)).
Proof.
  split.
  - intros Hl Hbefore Hafter. unfold scan. rewrite Hl. apply scan_selects.
    + intros x Hx. apply Z.leb_le. by apply Hbefore.
    + apply functions_pass_first_comparison.
    + intros x Hx. apply Z.leb_gt. by apply Hafter.
  - intros Hl Hbefore Hafter Hmax. unfold scan. rewrite Hl. apply scan_selects.
    + intros x Hx. apply Z.ltb_lt. by apply Hbefore.
    + by apply Z.ltb_lt.
    + intros x Hx. apply Z.ltb_ge. by apply Hafter.
Qed.

(** Two entries at the same [Order], visited as a, b: b for functions, a
    for notifies. *)
Lemma round_selects_last_function_first_notify_witness :
  let na := Notify.mk (Some 1%positive) None "a" "x" false (U16 5 I) false in
  let nb := Notify.mk (Some 2%positive) None "b" "y" false (U16 5 I) false in
  @scan range_fwd _ Function.Name Function.Order Z.leb {[ "a" := fn_a; "b" := fn_b ]}
  = (5, "b")
  ∧ @scan range_fwd _ Notify.Name Notify.Order Z.ltb {[ "a" := na; "b" := nb ]}
    = (5, "a").
Proof.
  intros na nb. split.
  - apply (@round_selects_last_function_first_notify range_fwd
             {[ "a" := fn_a; "b" := fn_b ]} {[ "a" := na; "b" := nb ]}
             fn_b [fn_a] [] na [] [nb]).
    + vm_compute. reflexivity.
    + intros x Hx. apply list_elem_of_singleton in Hx as ->. vm_compute. discriminate.
    + intros x Hx. by apply elem_of_nil in Hx.
  - apply (@round_selects_last_function_first_notify range_fwd
             {[ "a" := fn_a; "b" := fn_b ]} {[ "a" := na; "b" := nb ]}
             fn_b [fn_a] [] na [] [nb]).
    + vm_compute. reflexivity.
    + intros x Hx. by apply elem_of_nil in Hx.
    + intros x Hx. apply list_elem_of_singleton in Hx as ->. vm_compute. discriminate.
    + vm_compute. reflexivity.
Defined.

(** X2. A second registration under a name that is taken: without
    [Overwrite] it is refused and the lookup still gives the first entry;
    with [Overwrite] it is accepted and the lookup gives the second entry.
    In both cases every other name, and the other registry, is as before. *)
Theorem second_registration (h h1 : hook) (f1 f2 : Function.t) :
  hook_Function (Some f1) h = Ret (None, h1) →
  Function.Name f2 = Function.Name f1 →
  Function.Func f2 ≠ None →
  ∃ e h2, hook_Function (Some f2) h1 = Ret (e, h2)
    ∧ (Function.Overwrite f2 = false →
         e = Some (Errorf_w ErrFunctionExists (quoted (Function.Name f1)))
         ∧ (hook_GetFunction (Function.Name f1) h2).1 = Some f1)
    ∧ (Function.Overwrite f2 = true →
         e = None ∧ (hook_GetFunction (Function.Name f1) h2).1 = Some f2)
    ∧ (∀ nm, nm ≠ Function.Name f1 →
         (hook_GetFunction nm h2).1 = (hook_GetFunction nm h).1)
    ∧ notifies h2 = notifies h
    ∧ size (functions h2) = size (functions h1).
Proof.
  intros Hr1 Hname Hfunc.
  destruct (hook_Function_inv h f1) as (e1 & h1' & Hr1' & _ & Hok1).
  rewrite Hr1 in Hr1'. injection Hr1' as <- <-.
  destruct Hok1 as (Hne1 & _ & ->); [done |].
  unfold hook_Function, hook_GetFunction. rewrite Hname.
  rewrite !bool_decide_false by done. cbn [functions notifies fst].
  rewrite bool_decide_true by (rewrite lookup_insert_eq; eauto).
  destruct (Function.Overwrite f2) eqn:Ho; cbn [negb andb].
  - eexists _, _. split; [done |]. cbn [functions notifies fst].
    rewrite insert_insert_eq.
    repeat split; try done.
    + by rewrite lookup_insert_eq.
    + intros nm Hnm. by rewrite lookup_insert_ne.
    + rewrite !map_size_insert. by destruct (functions h !! Function.Name f1).
  - eexists _, _. split; [done |]. cbn [functions notifies fst].
    repeat split; try done.
    + by rewrite lookup_insert_eq.
    + intros nm Hnm. by rewrite lookup_insert_ne.
Qed.

Lemma second_registration_witness :
  let h1 := register (NewHook "h" "d") (RegFunction fn_a) in
  let f2 := Function.mk (Some 7%positive) "a" "again" true (U16 9 I) true in
  ∃ e h2, hook_Function (Some f2) h1 = Ret (e, h2)
    ∧ (Function.Overwrite f2 = false →
         e = Some (Errorf_w ErrFunctionExists (quoted "a"))
         ∧ (hook_GetFunction "a" h2).1 = Some fn_a)
    ∧ (Function.Overwrite f2 = true →
         e = None ∧ (hook_GetFunction "a" h2).1 = Some f2)
    ∧ (∀ nm, nm ≠ "a" →
         (hook_GetFunction nm h2).1 = (hook_GetFunction nm (NewHook "h" "d")).1)
    ∧ notifies h2 = notifies (NewHook "h" "d")
    ∧ size (functions h2) = size (functions h1).
Proof.
  intros h1 f2.
  apply (second_registration (NewHook "h" "d") h1 fn_a f2).
  - reflexivity.
  - reflexivity.
  - discriminate.
Defined.


(** ** States a hook can get into *)

Lemma hook_reorder_more_fuel `{MapRange} fuel fuel' h h' :
  hook_reorder fuel h = Ret h' → (fuel ≤ fuel')%nat → hook_reorder fuel' h = Ret h'.
Proof.
  unfold hook_reorder. destruct (doReorder h); simpl; [| done].
  destruct (order_loop Function.Name _ _ fuel _ _) as [r1 | |] eqn:H1; simpl; try done.
  destruct (order_loop Notify.Name _ _ fuel _ _) as [r2 | |] eqn:H2; simpl; try done.
  intros Hr Hle.
  rewrite (order_loop_more_fuel _ _ _ _ _ _ _ _ H1 Hle). simpl.
  by rewrite (order_loop_more_fuel _ _ _ _ _ _ _ _ H2 Hle).
Qed.

Lemma hook_Exec_more_fuel `{MapRange} fuel fuel' ctx h r :
  hook_Exec fuel ctx h = Ret r → (fuel ≤ fuel')%nat → hook_Exec fuel' ctx h = Ret r.
Proof.
  unfold hook_Exec.
  destruct (hook_reorder fuel h) as [h1 | |] eqn:Hre; simpl; try done.
  intros Hr Hle. by rewrite (hook_reorder_more_fuel _ _ _ _ Hre Hle).
Qed.

(** Whenever [Exec] returns on a hook that has not run yet, it has run
    everything in order and left the registries alone. *)
Lemma hook_Exec_returned `{MapRange} fuel ctx h h' evs :
  unexecuted h →
  hook_Exec fuel ctx h = Ret (h', evs) →
  (∀ k n, notifies h !! k = Some n → u16 (Notify.Order n) < MaxUint16)
  ∧ ∃ fs ns,
      h' = mk_hook (name h) (desc h) (functions h) (notifies h) (doReorder h)
             (Some <$> fs) (Some <$> ns)
      ∧ evs = (function_event ctx <$> fs) ++ (ns ≫= notify_events)
      ∧ fs ≡ₚ (map_to_list (functions h)).*2
      ∧ ns ≡ₚ (map_to_list (notifies h)).*2
      ∧ StronglySorted (order_le Function.Order) fs
      ∧ StronglySorted (order_le Notify.Order) ns.
Proof.
  intros Hun Hex.
  assert (Hlt : ∀ k n, notifies h !! k = Some n → u16 (Notify.Order n) < MaxUint16).
  { intros k n Hk. pose proof (uint16_le_max (Notify.Order n)) as Hle.
    destruct (decide (u16 (Notify.Order n) = MaxUint16)) as [Hmax | Hne]; [| lia].
    unfold hook_Exec in Hex.
    by rewrite (hook_reorder_hangs fuel h k n Hun Hk Hmax) in Hex. }
  split; [done |].
  set (fuel' := (fuel + size (functions h) + size (notifies h))%nat).
  destruct (hook_Exec_first fuel' ctx h Hun Hlt) as (fs & ns & Hex' & Hrest);
    [unfold fuel'; lia | unfold fuel'; lia |].
  rewrite (hook_Exec_more_fuel fuel fuel' ctx h _ Hex) in Hex'; [| unfold fuel'; lia].
  injection Hex' as -> ->. by exists fs, ns.
Qed.

(** A spent hook: the next [Exec] does not return. *)
Lemma spent_hook_Exec `{MapRange} fuel ctx h r :
  spent_hook h → hook_Exec fuel ctx h ≠ Ret r.
Proof.
  intros [Hd Hord]. unfold hook_Exec, hook_reorder. rewrite Hd. simpl.
  destruct (order_loop Function.Name _ _ _ _ _) as [[m1 o1] | |] eqn:H1; simpl; try done.
  destruct (order_loop Notify.Name _ _ _ _ _) as [[m2 o2] | |] eqn:H2; simpl; try done.
  apply order_loop_appends in H1 as (-> & suf1 & -> & _).
  apply order_loop_appends in H2 as (-> & suf2 & -> & _).
  destruct (functionOrder h) as [| x fo] eqn:Hfo.
  - destruct Hord as [? | Hno]; [done |].
    destruct (restore Function.Name _ _) as [fs | |]; simpl; try done.
    by rewrite restore_cleared_panics.
  - by rewrite restore_cleared_panics.
Qed.

Lemma spent_hook_register h r : spent_hook h → spent_hook (register h r).
Proof.
  intros [Hd Hord]. destruct r as [f | n]; unfold register.
  - destruct (hook_Function_inv h f) as (e & h' & -> & Hfail & Hok).
    destruct e as [e |]; [by rewrite Hfail |].
    by destruct Hok as (_ & _ & ->).
  - destruct (hook_Notify_inv h n) as (e & h' & -> & Hfail & Hok).
    destruct e as [e |]; [by rewrite Hfail |].
    by destruct Hok as (_ & _ & ->).
Qed.

Lemma spent_hook_register_all rs h : spent_hook h → spent_hook (register_all h rs).
Proof.
  revert h. induction rs as [| r rs IH]; intros h Hs; simpl; [done |].
  apply IH. by apply spent_hook_register.
Qed.

(** An [Exec] that returns on a hook with the flag set and an entry leaves
    the hook spent, whatever state it was in. *)
Lemma hook_Exec_spends `{MapRange} fuel ctx h h' evs :
  doReorder h = true →
  functions h ≠ ∅ ∨ notifies h ≠ ∅ →
  hook_Exec fuel ctx h = Ret (h', evs) →
  spent_hook h'.
Proof.
  intros Hd Hne. unfold hook_Exec, hook_reorder. rewrite Hd. simpl.
  destruct (order_loop Function.Name _ _ _ _ _) as [[m1 o1] | |] eqn:H1; simpl; try done.
  destruct (order_loop Notify.Name _ _ _ _ _) as [[m2 o2] | |] eqn:H2; simpl; try done.
  destruct (restore Function.Name _ _) as [fs | |]; simpl; try done.
  destruct (restore Notify.Name _ _) as [ns | |]; simpl; try done.
  destruct (exec_functions _ _) as [fe | |]; simpl; try done.
  destruct (exec_notifies _) as [ne | |]; simpl; try done.
  intros [= <- _]. split; [done |]. simpl.
  apply order_loop_appends in H1 as (_ & suf1 & -> & Hs1).
  apply order_loop_appends in H2 as (_ & suf2 & -> & Hs2).
  destruct Hne as [Hf | Hn]; [left | right];
    intros Happ; apply app_eq_nil in Happ as [_ ?].
  - by apply Hs1.
  - by apply Hs2.
Qed.

(** X6. [Exec] completes at most once on a hook that has an entry: after an
    [Exec] that returned, no later [Exec] returns, however many rounds it is
    given and whatever is registered in between. *)
Theorem Exec_completes_once `{MapRange}
    (h h1 : hook) (fuel fuel' : nat) (ctx ctx' : OSSignal) (evs : list event)
    (rs : list registration) (r : hook * list event) :
  doReorder h = true →
  functions h ≠ ∅ ∨ notifies h ≠ ∅ →
  hook_Exec fuel ctx h = Ret (h1, evs) →
  hook_Exec fuel' ctx' (register_all h1 rs) ≠ Ret r.
Proof.
  intros Hd Hne Hex. apply spent_hook_Exec, spent_hook_register_all.
  by eapply hook_Exec_spends.
Qed.

Lemma Exec_completes_once_witness :
  @hook_Exec range_fwd 5 sample_ctx
    (register_all (mk_hook "h" "d" {[ "a" := fn_a ]} ∅ true [Some fn_a] [])
       [RegFunction fn_b])
  = Panic.
Proof.
  destruct (@hook_Exec range_fwd 5 sample_ctx
              (register_all (mk_hook "h" "d" {[ "a" := fn_a ]} ∅ true [Some fn_a] [])
                 [RegFunction fn_b])) as [r | |] eqn:Hex.
  - exfalso. revert Hex.
    apply (@Exec_completes_once range_fwd
             (register (NewHook "h" "d") (RegFunction fn_a))
             (mk_hook "h" "d" {[ "a" := fn_a ]} ∅ true [Some fn_a] [])
             1 5 sample_ctx sample_ctx
             [EvCall fn_a sample_ctx] [RegFunction fn_b] r).
    + reflexivity.
    + left. vm_compute. discriminate.
    + vm_compute. reflexivity.
  - reflexivity.
  - vm_compute in Hex. discriminate Hex.
Defined.

(** X4. Whenever the first [Exec] on a hook filled by registration calls
    returns, it has started or called every registered function once, in
    non-decreasing [Order], then sent every registered notify once, in
    non-decreasing [Order], and the hook holds the same entries as before,
    with the flag as it was. *)
Theorem first_Exec_returned `{MapRange} nm d rs fuel ctx h' evs :
  hook_Exec fuel ctx (register_all (NewHook nm d) rs) = Ret (h', evs) →
  ∃ fs ns,
    evs = (function_event ctx <$> fs) ++ (ns ≫= notify_events)
    ∧ fs ≡ₚ (map_to_list (functions (register_all (NewHook nm d) rs))).*2
    ∧ ns ≡ₚ (map_to_list (notifies (register_all (NewHook nm d) rs))).*2
    ∧ StronglySorted (order_le Function.Order) fs
    ∧ StronglySorted (order_le Notify.Order) ns
    ∧ functions h' = functions (register_all (NewHook nm d) rs)
    ∧ notifies h' = notifies (register_all (NewHook nm d) rs)
    ∧ doReorder h' = doReorder (register_all (NewHook nm d) rs)
    ∧ functionOrder h' = Some <$> fs
    ∧ notifyOrder h' = Some <$> ns.
Proof.
  intros Hex. apply hook_Exec_returned in Hex as (_ & fs & ns & -> & -> & Hrest).
  - exists fs, ns. simpl. by destruct Hrest as (? & ? & ? & ?).
  - apply unexecuted_register_all, unexecuted_NewHook.
Qed.

Lemma first_Exec_returned_witness :
  ∃ fs ns,
    [EvCall fn_b sample_ctx; EvCall fn_a sample_ctx]
    = (function_event sample_ctx <$> fs) ++ (ns ≫= notify_events)
    ∧ fs ≡ₚ (map_to_list (functions (register_all (NewHook "h" "d")
                                       [RegFunction fn_a; RegFunction fn_b]))).*2
    ∧ ns ≡ₚ (map_to_list (notifies (register_all (NewHook "h" "d")
                                      [RegFunction fn_a; RegFunction fn_b]))).*2
    ∧ StronglySorted (order_le Function.Order) fs
    ∧ StronglySorted (order_le Notify.Order) ns
    ∧ functions (mk_hook "h" "d" {[ "a" := fn_a; "b" := fn_b ]} ∅ true
                   [Some fn_b; Some fn_a] [])
      = functions (register_all (NewHook "h" "d") [RegFunction fn_a; RegFunction fn_b])
    ∧ notifies (mk_hook "h" "d" {[ "a" := fn_a; "b" := fn_b ]} ∅ true
                  [Some fn_b; Some fn_a] [])
      = notifies (register_all (NewHook "h" "d") [RegFunction fn_a; RegFunction fn_b])
    ∧ doReorder (mk_hook "h" "d" {[ "a" := fn_a; "b" := fn_b ]} ∅ true
                   [Some fn_b; Some fn_a] [])
      = doReorder (register_all (NewHook "h" "d") [RegFunction fn_a; RegFunction fn_b])
    ∧ functionOrder (mk_hook "h" "d" {[ "a" := fn_a; "b" := fn_b ]} ∅ true
                       [Some fn_b; Some fn_a] []) = Some <$> fs
    ∧ notifyOrder (mk_hook "h" "d" {[ "a" := fn_a; "b" := fn_b ]} ∅ true
                     [Some fn_b; Some fn_a] []) = Some <$> ns.
Proof.
  apply (@first_Exec_returned range_fwd "h" "d" [RegFunction fn_a; RegFunction fn_b]
           2 sample_ctx).
  vm_compute. reflexivity.
Defined.

(** X5. On a hook filled by registration calls, the first [Exec] returns,
    given enough rounds, exactly when no registered notify has [Order]
    65535; with such a notify it returns for no number of rounds. *)
Theorem first_Exec_returns_iff `{MapRange} nm d rs ctx :
  (∃ fuel r, hook_Exec fuel ctx (register_all (NewHook nm d) rs) = Ret r)
  ↔ (∀ k n, notifies (register_all (NewHook nm d) rs) !! k = Some n →
            u16 (Notify.Order n) ≠ MaxUint16).
Proof.
  split.
  - intros (fuel & r & Hex) k n Hk Hmax.
    by rewrite (hook_Exec_hangs fuel ctx nm d rs k n Hk Hmax) in Hex.
  - intros Hno.
    destruct (hook_Exec_first
                (size (functions (register_all (NewHook nm d) rs))
                 + size (notifies (register_all (NewHook nm d) rs)))
                ctx (register_all (NewHook nm d) rs)) as (fs & ns & Hex & _).
    + apply unexecuted_register_all, unexecuted_NewHook.
    + intros k n Hk. pose proof (uint16_le_max (Notify.Order n)).
      specialize (Hno k n Hk). lia.
    + lia.
    + lia.
    + by eexists _, _.
Qed.

Lemma first_Exec_returns_iff_witness :
  ∃ fuel r, @hook_Exec range_fwd fuel sample_ctx
              (register_all (NewHook "h" "d") [RegFunction fn_a]) = Ret r.
Proof.
  apply (@first_Exec_returns_iff range_fwd "h" "d" [RegFunction fn_a] sample_ctx).
  intros k n. vm_compute. discriminate.
Defined.

(** ** Invariants of the hook *)









(** * Further properties of the handler *)

(** ** The states the handler can get into *)

Lemma notified_app evs1 evs2 : notified (evs1 ++ evs2) = notified evs1 ++ notified evs2.
Proof. unfold notified. apply omap_app. Qed.

Lemma notified_SignalNotify sigs : notified (EvSignalNotify <$> sigs) = sigs.
Proof.
  induction sigs as [| s sigs IH]; [done |].
  change (notified (EvSignalNotify <$> s :: sigs))
    with (s :: notified (EvSignalNotify <$> sigs)).
  by rewrite IH.
Qed.

Lemma notified_dispatch evs :
  Forall (λ e, is_dispatch e = true) evs → notified evs = [].
Proof.
  induction 1 as [| e evs He _ IH]; [done |].
  change (e :: evs) with ([e] ++ evs). rewrite notified_app, IH.
  by destruct e.
Qed.

Lemma dispatch_not_SignalReset e : is_dispatch e = true → is_SignalReset e = false.
Proof. by destruct e. Qed.

Lemma filter_SignalNotify (P : event → bool) sigs :
  (∀ sig, P (EvSignalNotify sig) = false) →
  List.filter P (EvSignalNotify <$> sigs) = [].
Proof.
  intros HP. induction sigs as [| s sigs IH]; [done |]. simpl. by rewrite HP.
Qed.

(** Events that touch none of the counters leave the invariant alone. *)
Lemma handler_inv_quiet w w' evs :
  hd w' = hd w →
  log w' = log w ++ evs →
  notified evs = [] →
  List.filter is_OsExit evs = [] →
  List.filter is_SignalReset evs = [] →
  handler_inv w → handler_inv w'.
Proof.
  intros Hhd Hlog Hn Ho Hr [H1 H2 H3 H4 H5 H6 H7 H8].
  split; rewrite ?Hhd, ?Hlog; try done.
  - by rewrite notified_app, Hn, app_nil_r.
  - unfold hookMap_nonnil. by rewrite Hhd.
  - by rewrite List.filter_app, Ho, app_nil_r.
  - by rewrite List.filter_app, Hr, app_nil_r.
Qed.

(** Storing a hook and capturing the signals that go with it. *)
Lemma handler_inv_capture w hs eh hm sigs :
  handler_inv w →
  NoDup sigs →
  (∀ sig hook, hm !! sig = Some hook → hook ≠ None) →
  (∀ sig, is_Some (hm !! sig) → is_Some (hookMap (hd w) !! sig) ∨ sig ∈ sigs) →
  (eh ≠ None → exitHook (hd w) ≠ None ∨ sigs = termination_signals) →
  handler_inv
    (mk_world hs
       (mk_handler eh hm
          (capturing (hd w) ++ filter (λ s, s ∉ capturing (hd w)) sigs)
          (loopLock (hd w)) (exitLock (hd w)))
       (log w ++ (EvSignalNotify <$> filter (λ s, s ∉ capturing (hd w)) sigs))).
Proof.
  intros [H1 H2 H3 H4 H5 H6 H7 H8] Hnd Hnn Hkeys Hexit.
  assert (Hin : ∀ s, s ∈ sigs →
            s ∈ capturing (hd w) ++ filter (λ s, s ∉ capturing (hd w)) sigs).
  { intros s Hs. apply elem_of_app.
    destruct (decide (s ∈ capturing (hd w))); [by left | right].
    by apply list_elem_of_filter. }
  split; simpl.
  - apply NoDup_app. split; [done |]. split; [| by apply NoDup_filter].
    intros s Hs Hs'. by apply list_elem_of_filter in Hs' as [? _].
  - by rewrite notified_app, notified_SignalNotify, H2.
  - done.
  - intros sig Hsig. destruct (Hkeys sig Hsig) as [Hold | Hnew].
    + apply elem_of_app. left. by apply H4.
    + by apply Hin.
  - intros Heh sig Hsig. destruct (Hexit Heh) as [Hold | ->].
    + apply elem_of_app. left. by apply H5.
    + by apply Hin.
  - rewrite List.filter_app, filter_SignalNotify by done. by rewrite app_nil_r.
  - rewrite List.filter_app, filter_SignalNotify by done. by rewrite app_nil_r.
  - done.
Qed.

Lemma termination_signals_NoDup : NoDup termination_signals.
Proof. apply (bool_decide_unpack _). by vm_compute. Qed.

Lemma handler_inv_store w hs :
  handler_inv w → handler_inv (mk_world hs (hd w) (log w)).
Proof. intros Hinv. by apply (handler_inv_quiet w _ []); rewrite ?app_nil_r. Qed.

Lemma handler_inv_setExit hook w :
  handler_inv w → handler_inv (handler_setExit hook w).2.
Proof.
  intros Hinv. unfold handler_setExit. destruct hook as [l |]; [| done].
  destruct (exitHook (hd w)) eqn:He; [done |]. cbn [snd].
  rewrite capture_termination_signals. cbv zeta. simpl.
  apply (handler_inv_capture w (hooks w) (Some l) (hookMap (hd w)) termination_signals);
    auto using termination_signals_NoDup.
  apply Hinv.
Qed.

Lemma handler_inv_set `{SignalNames} sig hook w r :
  handler_inv w → handler_set sig hook w = Ret r → handler_inv r.2.
Proof.
  intros Hinv. unfold handler_set. destruct hook as [l |]; [| by intros [= <-]].
  destruct (hookMap (hd w) !! sig) eqn:Hs.
  { destruct (os_Signal_String sig); simpl; try done. by intros [= <-]. }
  intros [= <-]. cbn [snd]. rewrite capture_spec. cbv zeta. simpl.
  apply (handler_inv_capture w (hooks w) (exitHook (hd w))
           (<[sig := Some l]> (hookMap (hd w))) [sig]); try done.
  - apply NoDup_singleton.
  - intros sig' hook'. rewrite lookup_insert_Some.
    intros [[_ <-] | [_ Hin]]; [done |]. eapply (inv_nonnil w Hinv); eauto.
  - intros sig'. rewrite lookup_insert_is_Some.
    intros [<- | [_ ?]]; [right; by apply list_elem_of_singleton | by left].
  - by left.
Qed.

Lemma handler_inv_GetsExit w : handler_inv w → handler_inv (handler_GetsExit w).2.
Proof.
  intros Hinv. unfold handler_GetsExit. destruct (exitHook (hd w)) eqn:He; [done |].
  destruct (alloc_hook_fresh (NewHook "exit" "Handle program exit") w) as (l & _ & ->).
  pose proof (handler_inv_setExit (Some l)
                (mk_world (<[l := NewHook "exit" "Handle program exit"]> (hooks w))
                   (hd w) (log w)) (handler_inv_store _ _ Hinv)) as Hset.
  by destruct (handler_setExit (Some l) _).
Qed.

Lemma handler_inv_Gets `{SignalNames} sig w r :
  handler_inv w → handler_Gets sig w = Ret r → handler_inv r.2.
Proof.
  intros Hinv. unfold handler_Gets. destruct (hookMap (hd w) !! sig) eqn:Hs.
  { by intros [= <-]. }
  destruct (os_Signal_String sig) as [s | |]; cbn [bind]; try done.
  match goal with
  | |- context [alloc_hook ?hk w] =>
      destruct (alloc_hook_fresh hk w) as (l & _ & ->)
  end.
  match goal with
  | |- context [handler_set sig (Some l) ?w1] =>
      pose proof (handler_inv_set sig (Some l) w1) as Hset;
      destruct (handler_set sig (Some l) w1) as [r1 | |]; cbn [bind]; try done
  end.
  intros [= <-]. cbn [snd]. apply Hset; [| done]. by apply handler_inv_store.
Qed.

Lemma handler_inv_exit `{MapRange} fuel code t sig w w' :
  handler_inv w → handler_exit fuel code t sig w = Ret w' → handler_inv w'.
Proof.
  intros Hinv Hex. destruct (exitLock (hd w)) eqn:Hl.
  { rewrite handler_exit_locked in Hex by done. by injection Hex as <-. }
  destruct (handler_exit_first fuel code t sig w w' Hl Hex) as (Hhd & devs & Hdevs & Hlog).
  destruct Hinv as [H1 H2 H3 H4 H5 H6 H7 H8]. rewrite Hl in H6, H7.
  assert (Hn : notified (log w') = notified (log w)).
  { rewrite Hlog, !notified_app. destruct (exitHook (hd w)); simpl.
    - rewrite (notified_dispatch devs Hdevs). by rewrite app_nil_r.
    - by rewrite app_nil_r. }
  assert (Ho : length (List.filter is_OsExit (log w')) = 1%nat).
  { rewrite Hlog, !List.filter_app, !length_app, H6.
    destruct (exitHook (hd w)); simpl; [| done].
    by rewrite (filter_dispatch_nil _ _ dispatch_not_OsExit Hdevs). }
  assert (Hr : length (List.filter is_SignalReset (log w')) = 1%nat).
  { rewrite Hlog, !List.filter_app, !length_app, H7.
    destruct (exitHook (hd w)); simpl; [| done].
    by rewrite (filter_dispatch_nil _ _ dispatch_not_SignalReset Hdevs). }
  split; rewrite ?Hhd; simpl; try done.
  - by rewrite Hn.
  - unfold hookMap_nonnil. by rewrite Hhd.
Qed.

Lemma handler_inv_Hook_Exec `{MapRange} fuel hook ctx w w' evs :
  handler_inv w →
  notified evs = [] → List.filter is_OsExit evs = [] → List.filter is_SignalReset evs = [] →
  Hook_Exec fuel hook ctx (mk_world (hooks w) (hd w) (log w ++ evs)) = Ret w' →
  handler_inv w'.
Proof.
  intros Hinv Hn Ho Hr (Hhd & devs & Hlog & Hdevs)%Hook_Exec_inv. simpl in *.
  apply (handler_inv_quiet w w' (evs ++ devs)); try done.
  - by rewrite Hlog, app_assoc.
  - by rewrite notified_app, Hn, (notified_dispatch devs Hdevs).
  - by rewrite List.filter_app, Ho, (filter_dispatch_nil _ _ dispatch_not_OsExit Hdevs).
  - by rewrite List.filter_app, Hr, (filter_dispatch_nil _ _ dispatch_not_SignalReset Hdevs).
Qed.

Lemma handler_inv_handleSignal `{MapRange} fuel sig w w' :
  handler_inv w → handler_handleSignal fuel sig w = Ret w' → handler_inv w'.
Proof.
  intros Hinv. destruct (exitLock (hd w)) eqn:Hl.
  { unfold handler_handleSignal. rewrite Hl. by intros [= <-]. }
  rewrite handler_handleSignal_unfold by done.
  destruct (match hookMap (hd w) !! sig with
            | Some hook => Hook_Exec fuel hook _ _
            | None => Ret w
            end) as [w0 | |] eqn:Hpart; simpl; try done.
  assert (Hinv0 : handler_inv w0).
  { destruct (hookMap (hd w) !! sig) as [hook |].
    - match type of Hpart with
      | Hook_Exec _ _ ?c (emit ?e _) = _ =>
          by apply (handler_inv_Hook_Exec fuel hook c w w0 [e])
      end.
    - by injection Hpart as <-. }
  destruct (is_termination sig).
  - by apply handler_inv_exit.
  - by intros [= <-].
Qed.

Lemma handler_inv_Loop w w' :
  handler_inv w → handler_Loop_enter w = Ret w' → handler_inv w'.
Proof.
  intros [H1 H2 H3 H4 H5 H6 H7 H8]. unfold handler_Loop_enter.
  destruct (exitLock (hd w)) eqn:Hl; [done |].
  destruct (loopLock (hd w)); [done |]. intros [= <-].
  split; simpl; rewrite ?Hl; try done.
Qed.

Lemma handler_inv_Hook_registration w w' :
  hd w' = hd w → log w' = log w → handler_inv w → handler_inv w'.
Proof.
  intros Hhd Hlog. apply (handler_inv_quiet w w' []); by rewrite ?app_nil_r.
Qed.

Lemma handler_inv_step `{MapRange} `{SignalNames} fuel c w w' :
  handler_inv w → run_api fuel c w = Ret w' → handler_inv w'.
Proof.
  intros Hinv.
  destruct c as [hk | | | sig hk | sig | sig | | sig | code | hk fn | hk nt | hk ctx];
    unfold run_api.
  - intros [= <-]. by apply handler_inv_setExit.
  - by intros [= <-].
  - intros [= <-]. by apply handler_inv_GetsExit.
  - destruct (handler_Set sig hk w) as [r | |] eqn:Hr; simpl; try done.
    intros [= <-]. by eapply handler_inv_set.
  - unfold handler_Get. destruct (hookMap (hd w) !! sig); by intros [= <-].
  - destruct (handler_Gets sig w) as [r | |] eqn:Hr; simpl; try done.
    intros [= <-]. by eapply handler_inv_Gets.
  - by apply handler_inv_Loop.
  - by apply handler_inv_handleSignal.
  - by apply handler_inv_exit.
  - unfold Hook_Function. destruct hk as [l |]; [| done].
    destruct (hooks w !! l) as [h0 |]; [| done].
    destruct (hook_Function fn h0) as [r | |]; simpl; try done.
    intros [= <-]. by apply handler_inv_store.
  - unfold Hook_Notify. destruct hk as [l |]; [| done].
    destruct (hooks w !! l) as [h0 |]; [| done].
    destruct (hook_Notify nt h0) as [r | |]; simpl; try done.
    intros [= <-]. by apply handler_inv_store.
  - intros Hex. eapply (handler_inv_Hook_Exec fuel hk ctx w w' []); try done.
    rewrite app_nil_r. by destruct w.
Qed.

Lemma handler_inv_initial hs : handler_inv (initial_world hs).
Proof.
  split; simpl;
    first [ done | constructor | by intros ? ? ?%lookup_empty_Some
          | by intros sig [? ?%lookup_empty_Some] ].
Qed.

Lemma handler_inv_reachable `{MapRange} `{SignalNames} fuel cs w w' :
  handler_inv w → run_apis fuel cs w = Ret w' → handler_inv w'.
Proof.
  revert w. induction cs as [| c cs IH]; intros w Hinv; simpl.
  - by intros [= <-].
  - destruct (run_api fuel c w) as [w1 | |] eqn:Hc; simpl; try done.
    apply IH. by eapply handler_inv_step.
Qed.

(** X7. After any sequence of calls on a new handler that returns,
    [signal.Notify] has been issued once for each captured signal and for no
    other: the signals handed to it, in order, are the list [capturing],
    which has no duplicates. *)
Theorem Notify_once_per_signal `{MapRange} `{SignalNames}
    (hs : gmap loc hook) (fuel : nat) (cs : list api_call) (w : world) :
  run_apis fuel cs (initial_world hs) = Ret w →
  notified (log w) = capturing (hd w) ∧ NoDup (capturing (hd w)).
Proof.
  intros Hrun.
  destruct (handler_inv_reachable fuel cs _ w (handler_inv_initial hs) Hrun).
  done.
Qed.

Lemma Notify_once_per_signal_witness :
  let w := mk_world {[ 1%positive := NewHook "x" "y" ]}
             (mk_handler (Some 1%positive) {[ Some SIGINT := Some 1%positive ]}
                [Some SIGINT; Some SIGTERM; Some SIGQUIT] false false)
             [EvSignalNotify (Some SIGINT); EvSignalNotify (Some SIGTERM);
              EvSignalNotify (Some SIGQUIT)] in
  notified (log w) = capturing (hd w) ∧ NoDup (capturing (hd w)).
Proof.
  intros w.
  apply (@Notify_once_per_signal range_fwd sample_names
           {[ 1%positive := NewHook "x" "y" ]} 1
           [ApiSet (Some SIGINT) (Some 1%positive); ApiSetExit (Some 1%positive);
            ApiSet (Some SIGINT) (Some 1%positive)] w).
  vm_compute. reflexivity.
Defined.

(** X8. After any sequence of calls on a new handler that returns, every
    signal that has a hook has a non-nil hook and is captured, and once an
    exit hook is set, interrupt, terminate and quit are captured. *)
Theorem hooked_signals_are_captured `{MapRange} `{SignalNames}
    (hs : gmap loc hook) (fuel : nat) (cs : list api_call) (w : world) :
  run_apis fuel cs (initial_world hs) = Ret w →
  (∀ sig hook, hookMap (hd w) !! sig = Some hook →
               hook ≠ None ∧ sig ∈ capturing (hd w))
  ∧ (exitHook (hd w) ≠ None →
     Some SIGINT ∈ capturing (hd w) ∧ Some SIGTERM ∈ capturing (hd w)
     ∧ Some SIGQUIT ∈ capturing (hd w)).
Proof.
  intros Hrun.
  destruct (handler_inv_reachable fuel cs _ w (handler_inv_initial hs) Hrun)
    as [_ _ Hnn Hcap Hexit _ _ _].
  split.
  - intros sig hook Hs. split; [by eapply Hnn | apply Hcap; eauto].
  - intros He. repeat split; apply (Hexit He); unfold termination_signals.
    + left.
    + right. left.
    + right. right. left.
Qed.

Lemma hooked_signals_are_captured_witness :
  ∃ w, @run_apis range_fwd sample_names 1
         [ApiGets (Some 10); ApiGetsExit] (initial_world ∅) = Ret w
    ∧ (∀ sig hook, hookMap (hd w) !! sig = Some hook →
                   hook ≠ None ∧ sig ∈ capturing (hd w))
    ∧ (exitHook (hd w) ≠ None →
       Some SIGINT ∈ capturing (hd w) ∧ Some SIGTERM ∈ capturing (hd w)
       ∧ Some SIGQUIT ∈ capturing (hd w)).
Proof.
  eexists. split; [vm_compute; reflexivity |].
  apply (@hooked_signals_are_captured range_fwd sample_names ∅ 1
           [ApiGets (Some 10); ApiGetsExit]).
  vm_compute. reflexivity.
Defined.

(** X9. After any sequence of calls on a new handler that returns,
    [os.Exit] and [signal.Reset] have each been issued once if the exit
    latch is set and not at all otherwise; and with the latch set the loop
    is marked as not running. *)
Theorem exit_issued_iff_latched `{MapRange} `{SignalNames}
    (hs : gmap loc hook) (fuel : nat) (cs : list api_call) (w : world) :
  run_apis fuel cs (initial_world hs) = Ret w →
  length (List.filter is_OsExit (log w)) = (if exitLock (hd w) then 1%nat else 0%nat)
  ∧ length (List.filter is_SignalReset (log w))
    = (if exitLock (hd w) then 1%nat else 0%nat)
  ∧ (exitLock (hd w) = true → loopLock (hd w) = false).
Proof.
  intros Hrun.
  destruct (handler_inv_reachable fuel cs _ w (handler_inv_initial hs) Hrun).
  done.
Qed.

Lemma exit_issued_iff_latched_witness :
  ∃ w, @run_apis range_fwd sample_names 1
         [ApiLoop; ApiHandleSignal (Some SIGTERM); ApiExit 2; ApiHandleSignal (Some SIGINT)]
         (initial_world ∅) = Ret w
    ∧ length (List.filter is_OsExit (log w)) = (if exitLock (hd w) then 1%nat else 0%nat)
    ∧ length (List.filter is_SignalReset (log w))
      = (if exitLock (hd w) then 1%nat else 0%nat)
    ∧ (exitLock (hd w) = true → loopLock (hd w) = false).
Proof.
  eexists. split; [vm_compute; reflexivity |].
  apply (@exit_issued_iff_latched range_fwd sample_names ∅ 1
           [ApiLoop; ApiHandleSignal (Some SIGTERM); ApiExit 2;
            ApiHandleSignal (Some SIGINT)]).
  vm_compute. reflexivity.
Defined.

(** ** Nothing is taken away *)

Lemma grows_refl w : grows w w.
Proof. split; done. Qed.

Lemma grows_trans w1 w2 w3 : grows w1 w2 → grows w2 w3 → grows w1 w3.
Proof.
  intros [A1 A2 A3 A4 A5 A6] [B1 B2 B3 B4 B5 B6]. split.
  - auto.
  - auto.
  - intros He. rewrite B3; [by apply A3 |]. by rewrite A3.
  - by etrans.
  - by etrans.
  - auto.
Qed.

(** A change of the store that keeps every location, with the handler and
    the log extended. *)
Lemma grows_store w hs' eh hm cap' ll el evs :
  (∀ l, is_Some (hooks w !! l) → is_Some (hs' !! l)) →
  (∀ sig hook, hookMap (hd w) !! sig = Some hook → hm !! sig = Some hook) →
  (exitHook (hd w) ≠ None → eh = exitHook (hd w)) →
  (exitLock (hd w) = true → el = true) →
  grows w (mk_world hs'
             (mk_handler eh hm (capturing (hd w) ++ cap') ll el) (log w ++ evs)).
Proof. intros. split; simpl; try done; by apply prefix_app_r. Qed.

Lemma grows_insert_hook w l hk :
  ∀ l', is_Some (hooks w !! l') → is_Some (<[l := hk]> (hooks w) !! l').
Proof. intros l' Hl'. rewrite lookup_insert_is_Some. destruct (decide (l = l')); auto. Qed.

Lemma grows_setExit hook w : grows w (handler_setExit hook w).2.
Proof.
  unfold handler_setExit. destruct hook as [l |]; [| apply grows_refl].
  destruct (exitHook (hd w)) eqn:He; [apply grows_refl |]. cbn [snd].
  rewrite capture_termination_signals. cbv zeta. simpl.
  apply grows_store; try done.
Qed.

Lemma grows_set `{SignalNames} sig hook w r :
  handler_set sig hook w = Ret r → grows w r.2.
Proof.
  unfold handler_set. destruct hook as [l |]; [| intros [= <-]; apply grows_refl].
  destruct (hookMap (hd w) !! sig) eqn:Hs.
  { destruct (os_Signal_String sig); simpl; try done. intros [= <-]. apply grows_refl. }
  intros [= <-]. cbn [snd]. rewrite capture_spec. cbv zeta. simpl.
  apply grows_store; try done.
  intros sig' hook' Hs'. simpl. rewrite lookup_insert_ne; [done |]. intros ->. congruence.
Qed.

Lemma grows_alloc w hk :
  grows w (mk_world (<[fresh (dom (hooks w)) := hk]> (hooks w)) (hd w) (log w)).
Proof. split; simpl; try done. apply grows_insert_hook. Qed.

Lemma grows_GetsExit w : grows w (handler_GetsExit w).2.
Proof.
  unfold handler_GetsExit. destruct (exitHook (hd w)) eqn:He; [apply grows_refl |].
  unfold alloc_hook.
  match goal with
  | |- context [handler_setExit ?h ?w1] =>
      pose proof (grows_setExit h w1) as Hset; destruct (handler_setExit h w1)
  end.
  cbn [snd] in *. eapply grows_trans; [apply grows_alloc | exact Hset].
Qed.

Lemma grows_Gets `{SignalNames} sig w r : handler_Gets sig w = Ret r → grows w r.2.
Proof.
  unfold handler_Gets. destruct (hookMap (hd w) !! sig) eqn:Hs.
  { intros [= <-]. apply grows_refl. }
  destruct (os_Signal_String sig) as [s | |]; cbn [bind]; try done.
  unfold alloc_hook.
  match goal with
  | |- context [handler_set sig ?h ?w1] =>
      pose proof (grows_set sig h w1) as Hset;
      destruct (handler_set sig h w1) as [r1 | |]; cbn [bind]; try done
  end.
  intros [= <-]. cbn [snd]. eapply grows_trans; [apply grows_alloc | by apply Hset].
Qed.

Lemma grows_Hook_Exec `{MapRange} fuel hook ctx w w' :
  Hook_Exec fuel hook ctx w = Ret w' → grows w w'.
Proof.
  unfold Hook_Exec. destruct hook as [l |]; [| done].
  destruct (hooks w !! l) as [hk |]; [| done].
  destruct (hook_Exec fuel ctx hk) as [r | |]; simpl; try done.
  intros [= <-]. split; simpl; try done.
  - apply grows_insert_hook.
  - by apply prefix_app_r.
Qed.

Lemma grows_emit e w : grows w (emit e w).
Proof. split; simpl; try done. by apply prefix_app_r. Qed.

Lemma grows_exit `{MapRange} fuel code t sig w w' :
  handler_exit fuel code t sig w = Ret w' → grows w w'.
Proof.
  unfold handler_exit. destruct (exitLock (hd w)) eqn:Hl.
  { intros [= <-]. apply grows_refl. }
  simpl.
  assert (Hpre : ∀ (w1 : world) caps,
            hd w1 = set_loopLock false (set_exitLock true (hd w)) →
            (∀ l, is_Some (hooks w !! l) → is_Some (hooks w1 !! l)) →
            log w `prefix_of` log w1 →
            grows w (emit (EvOsExit code) (emit (EvSignalReset caps) w1))).
  { intros w1 caps Hhd Hhs Hlog. split; simpl; rewrite ?Hhd; simpl; try done.
    by do 2 apply prefix_app_r. }
  destruct (exitHook (hd w)) as [l |].
  - match goal with
    | |- context [Hook_Exec ?a ?b ?c ?d] =>
        destruct (Hook_Exec a b c d) as [w1 | |] eqn:Hex; simpl; try done
    end.
    intros [= <-]. pose proof (Hook_Exec_inv _ _ _ _ _ Hex) as (Hhd & _).
    apply grows_Hook_Exec in Hex as [G1 _ _ _ G5 _]. simpl in *.
    apply Hpre; try done. etrans; [| exact G5]. by do 2 apply prefix_app_r.
  - cbn [bind]. intros [= <-]. apply Hpre; try done. simpl. by apply prefix_app_r.
Qed.

Lemma grows_handleSignal `{MapRange} fuel sig w w' :
  handler_handleSignal fuel sig w = Ret w' → grows w w'.
Proof.
  destruct (exitLock (hd w)) eqn:Hl.
  { unfold handler_handleSignal. rewrite Hl. intros [= <-]. apply grows_refl. }
  rewrite handler_handleSignal_unfold by done.
  destruct (match hookMap (hd w) !! sig with
            | Some hook => Hook_Exec fuel hook _ _
            | None => Ret w
            end) as [w0 | |] eqn:Hpart; simpl; try done.
  assert (G0 : grows w w0).
  { destruct (hookMap (hd w) !! sig) as [hook |].
    - eapply grows_trans; [apply grows_emit | by eapply grows_Hook_Exec].
    - injection Hpart as <-. apply grows_refl. }
  destruct (is_termination sig).
  - intros Hex. eapply grows_trans; [exact G0 | by eapply grows_exit].
  - by intros [= <-].
Qed.

Lemma grows_step `{MapRange} `{SignalNames} fuel c w w' :
  run_api fuel c w = Ret w' → grows w w'.
Proof.
  destruct c as [hk | | | sig hk | sig | sig | | sig | code | hk fn | hk nt | hk ctx];
    unfold run_api.
  - intros [= <-]. apply grows_setExit.
  - intros [= <-]. apply grows_refl.
  - intros [= <-]. apply grows_GetsExit.
  - destruct (handler_Set sig hk w) as [r | |] eqn:Hr; simpl; try done.
    intros [= <-]. by eapply grows_set.
  - unfold handler_Get. destruct (hookMap (hd w) !! sig); intros [= <-]; apply grows_refl.
  - destruct (handler_Gets sig w) as [r | |] eqn:Hr; simpl; try done.
    intros [= <-]. by eapply grows_Gets.
  - unfold handler_Loop_enter. destruct (exitLock (hd w)) eqn:Hl; [done |].
    destruct (loopLock (hd w)); [done |]. intros [= <-].
    split; simpl; try done.
  - apply grows_handleSignal.
  - apply grows_exit.
  - unfold Hook_Function. destruct hk as [l |]; [| done].
    destruct (hooks w !! l) as [h0 |]; [| done].
    destruct (hook_Function fn h0) as [r | |]; simpl; try done.
    intros [= <-]. split; simpl; try done. apply grows_insert_hook.
  - unfold Hook_Notify. destruct hk as [l |]; [| done].
    destruct (hooks w !! l) as [h0 |]; [| done].
    destruct (hook_Notify nt h0) as [r | |]; simpl; try done.
    intros [= <-]. split; simpl; try done. apply grows_insert_hook.
  - apply grows_Hook_Exec.
Qed.

(** X10. No call takes anything away.  Across any sequence of calls that
    returns: a hook stored for a signal stays stored for it, unchanged; an
    exit hook, once set, stays the exit hook; no hook leaves the store; the
    captured signals and the issued calls only get longer; and the exit
    latch, once set, stays set. *)
Theorem registrations_are_permanent `{MapRange} `{SignalNames}
    (fuel : nat) (cs : list api_call) (w w' : world) :
  run_apis fuel cs w = Ret w' →
  (∀ sig hook, hookMap (hd w) !! sig = Some hook → hookMap (hd w') !! sig = Some hook)
  ∧ (exitHook (hd w) ≠ None → exitHook (hd w') = exitHook (hd w))
  ∧ (∀ l, is_Some (hooks w !! l) → is_Some (hooks w' !! l))
  ∧ capturing (hd w) `prefix_of` capturing (hd w')
  ∧ log w `prefix_of` log w'
  ∧ (exitLock (hd w) = true → exitLock (hd w') = true).
Proof.
  intros Hrun. assert (G : grows w w').
  { revert w Hrun. induction cs as [| c cs IH]; intros w; simpl.
    - intros [= <-]. apply grows_refl.
    - destruct (run_api fuel c w) as [w1 | |] eqn:Hc; simpl; try done.
      intros Hrun. eapply grows_trans; [by eapply grows_step | by apply IH]. }
  by destruct G.
Qed.

Lemma registrations_are_permanent_witness :
  ∃ w', @run_apis range_fwd sample_names 1
          [ApiSet (Some 10) (Some 2%positive); ApiGetsExit; ApiExit 0;
           ApiSetExit (Some 2%positive)]
          (mk_world {[ 1%positive := NewHook "x" "y"; 2%positive := NewHook "u" "v" ]}
             (mk_handler None {[ Some 10 := Some 1%positive ]} [Some 10] false false)
             [EvSignalNotify (Some 10)]) = Ret w'
    ∧ hookMap (hd w') !! Some 10 = Some (Some 1%positive).
Proof.
  eexists. split; [vm_compute; reflexivity |].
  eapply (@registrations_are_permanent range_fwd sample_names 1
           [ApiSet (Some 10) (Some 2%positive); ApiGetsExit; ApiExit 0;
            ApiSetExit (Some 2%positive)]
           (mk_world {[ 1%positive := NewHook "x" "y"; 2%positive := NewHook "u" "v" ]}
              (mk_handler None {[ Some 10 := Some 1%positive ]} [Some 10] false false)
              [EvSignalNotify (Some 10)])).
  - vm_compute. reflexivity.
  - vm_compute. reflexivity.
Defined.

(** ** Lookups after registration *)

(** X11. After an accepted [Set] (an accepted [SetExit]) the lookup [Get]
    for that signal ([GetExit]) returns the hook that was passed, which is
    not nil; every other lookup returns what it returned before; and a
    lookup changes nothing. *)
Theorem handler_lookup_round_trip `{SignalNames}
    (w w' : world) (sig : os_Signal) (hook : Hook) :
  (handler_Set sig hook w = Ret (None, w') →
     hook ≠ None
     ∧ handler_Get sig w' = (hook, w')
     ∧ (∀ sig', sig' ≠ sig → (handler_Get sig' w').1 = (handler_Get sig' w).1)
     ∧ (handler_GetExit w').1 = (handler_GetExit w).1)
  ∧ (handler_SetExit hook w = (None, w') →
       hook ≠ None
       ∧ handler_GetExit w' = (hook, w')
       ∧ (∀ sig', (handler_Get sig' w').1 = (handler_Get sig' w).1))
  ∧ (handler_Get sig w).2 = w
  ∧ (handler_GetExit w).2 = w.
Proof.
  split; [| split; [| split]].
  - unfold handler_Set, handler_set. destruct hook as [l |]; [| done].
    destruct (hookMap (hd w) !! sig) eqn:Hs.
    { destruct (os_Signal_String sig); simpl; done. }
    rewrite capture_spec. cbv zeta. intros [= <-].
    unfold handler_Get, handler_GetExit. simpl.
    rewrite lookup_insert_eq. repeat split; try done.
    intros sig' Hne. rewrite lookup_insert_ne; [| by intros ->].
    by destruct (hookMap (hd w) !! sig').
  - unfold handler_SetExit, handler_setExit. destruct hook as [l |]; [| done].
    destruct (exitHook (hd w)) eqn:He; [done |].
    rewrite capture_termination_signals. cbv zeta. intros [= <-].
    unfold handler_Get, handler_GetExit. simpl. repeat split; try done.
    intros sig'. by destruct (hookMap (hd w) !! sig').
  - unfold handler_Get. by destruct (hookMap (hd w) !! sig).
  - done.
Qed.

Lemma handler_lookup_round_trip_witness :
  let w := initial_world {[ 1%positive := NewHook "x" "y" ]} in
  let w' := mk_world {[ 1%positive := NewHook "x" "y" ]}
              (mk_handler None {[ Some 10 := Some 1%positive ]} [Some 10] false false)
              [EvSignalNotify (Some 10)] in
  handler_Get (Some 10) w' = (Some 1%positive, w')
  ∧ (handler_Get (Some 12) w').1 = None.
Proof.
  intros w w'.
  destruct (@handler_lookup_round_trip sample_names w w' (Some 10) (Some 1%positive))
    as (Hset & _).
  destruct Hset as (_ & Hget & Hother & _); [vm_compute; reflexivity |].
  split; [exact Hget |]. rewrite Hother; [reflexivity | discriminate].
Defined.

(** X12. [Gets] and [GetsExit] are idempotent: a second call returns the
    same hook and changes nothing, the plain lookup agrees with it, and a
    registration for that signal (of an exit hook) is then refused. *)
Theorem Gets_idempotent `{SignalNames}
    (w w1 : world) (sig : syscall_Signal) (hook hook' : Hook) :
  hookMap_nonnil w →
  hook' ≠ None →
  (handler_Gets (Some sig) w = Ret (hook, w1) →
     handler_Gets (Some sig) w1 = Ret (hook, w1)
     ∧ handler_Get (Some sig) w1 = (hook, w1)
     ∧ handler_Set (Some sig) hook' w1
       = Ret (Some (Errorf_w ErrSignalExists (Signal_String sig)), w1))
  ∧ (handler_GetsExit w = (hook, w1) →
       handler_GetsExit w1 = (hook, w1)
       ∧ handler_GetExit w1 = (hook, w1)
       ∧ handler_SetExit hook' w1 = (Some ErrExitExists, w1)).
Proof.
  intros Hinv Hnn. destruct hook' as [l' |]; [| done]. split.
  - assert (Hkey : handler_Gets (Some sig) w = Ret (hook, w1) →
                   hookMap (hd w1) !! Some sig = Some hook).
    { unfold handler_Gets. destruct (hookMap (hd w) !! Some sig) eqn:Hs.
      - by intros [= <- <-].
      - cbn [os_Signal_String bind].
        match goal with
        | |- context [alloc_hook ?hk w] =>
            destruct (alloc_hook_fresh hk w) as (l & _ & ->)
        end.
        rewrite handler_set_fresh by done. cbn [bind snd hd hookMap].
        rewrite lookup_insert_eq. cbn [default]. intros [= <- <-].
        cbn [hd hookMap]. by rewrite lookup_insert_eq. }
    intros Hr. specialize (Hkey Hr).
    unfold handler_Gets, handler_Get, handler_Set, handler_set. rewrite Hkey.
    by cbn [os_Signal_String bind].
  - assert (Hkey : handler_GetsExit w = (hook, w1) →
                   exitHook (hd w1) = hook ∧ hook ≠ None).
    { unfold handler_GetsExit. destruct (exitHook (hd w)) eqn:He.
      - by intros [= <- <-].
      - destruct (alloc_hook_fresh (NewHook "exit" "Handle program exit") w)
          as (l & _ & ->).
        rewrite handler_setExit_fresh by done. by intros [= <- <-]. }
    intros Hr. destruct (Hkey Hr) as [He Hne].
    unfold handler_GetsExit, handler_GetExit, handler_SetExit, handler_setExit.
    rewrite He. by destruct hook.
Qed.

Lemma Gets_idempotent_witness :
  let w := initial_world ∅ in
  ∃ hook w1, @handler_Gets sample_names (Some 10) w = Ret (hook, w1)
    ∧ @handler_Gets sample_names (Some 10) w1 = Ret (hook, w1)
    ∧ handler_Get (Some 10) w1 = (hook, w1)
    ∧ @handler_Set sample_names (Some 10) (Some 5%positive) w1
      = Ret (Some (Errorf_w ErrSignalExists "signal"), w1).
Proof.
  intros w. eexists _, _. split; [vm_compute; reflexivity |].
  eapply (@Gets_idempotent sample_names w _ 10 _ (Some 5%positive)).
  - intros sig hook. vm_compute. discriminate.
  - discriminate.
  - vm_compute. reflexivity.
Defined.

(** X13. [Loop] starts only when neither the loop nor the exit is marked as
    running, and marks the loop as running.  A second [Loop] then panics,
    and so does a [Loop] after the exit sequence has run, which also marks
    the loop as not running. *)
Theorem Loop_start `{MapRange} (fuel : nat) (c : handler_call) (w w' : world) :
  (handler_Loop_enter w = Ret w' →
     exitLock (hd w) = false ∧ loopLock (hd w) = false
     ∧ w' = with_hd (set_loopLock true) w
     ∧ handler_Loop_enter w' = Panic)
  ∧ (exitLock (hd w) = false → exit_triggering c → run_call fuel c w = Ret w' →
       exitLock (hd w') = true ∧ loopLock (hd w') = false
       ∧ handler_Loop_enter w' = Panic).
Proof.
  split.
  - unfold handler_Loop_enter. destruct (exitLock (hd w)) eqn:Hl; [done |].
    destruct (loopLock (hd w)) eqn:Hll; [done |]. intros [= <-].
    repeat split; try done. simpl. by rewrite Hl.
  - intros Hl Hc Hrun.
    assert (Hhd : hd w' = set_loopLock false (set_exitLock true (hd w))).
    { destruct c as [sig | code]; simpl in Hc, Hrun.
      - rewrite handler_handleSignal_unfold in Hrun by done. rewrite Hc in Hrun.
        destruct (match hookMap (hd w) !! sig with
                  | Some hook => Hook_Exec fuel hook _ _
                  | None => Ret w
                  end) as [w0 | |] eqn:Hpart; simpl in Hrun; try done.
        apply signal_hook_part in Hpart as (Hhd0 & _).
        apply handler_exit_first in Hrun as [-> _]; by rewrite Hhd0.
      - by apply handler_exit_first in Hrun as [-> _]. }
    unfold handler_Loop_enter. by rewrite Hhd.
Qed.

Lemma Loop_start_witness :
  let w := initial_world ∅ in
  handler_Loop_enter (with_hd (set_loopLock true) w) = Panic
  ∧ ∃ w', @run_call range_fwd 1 (CallExit 0) w = Ret w'
      ∧ handler_Loop_enter w' = Panic.
Proof.
  intros w. split.
  - destruct (@Loop_start range_fwd 1 (CallExit 0) w (with_hd (set_loopLock true) w))
      as [Hfirst _].
    apply Hfirst. reflexivity.
  - eexists. split; [vm_compute; reflexivity |].
    match goal with
    | |- handler_Loop_enter ?w1 = _ =>
        destruct (@Loop_start range_fwd 1 (CallExit 0) w w1) as [_ Hafter]
    end.
    apply Hafter.
    + reflexivity.
    + exact I.
    + vm_compute. reflexivity.
Defined.

(** ** The handler together with its hooks *)

Lemma Hook_Exec_first `{MapRange} fuel l ctx w nm d rs :
  hooks w !! l = Some (register_all (NewHook nm d) rs) →
  (∀ k n, notifies (register_all (NewHook nm d) rs) !! k = Some n →
          u16 (Notify.Order n) ≠ MaxUint16) →
  (size (functions (register_all (NewHook nm d) rs)) ≤ fuel)%nat →
  (size (notifies (register_all (NewHook nm d) rs)) ≤ fuel)%nat →
  ∃ fs ns hk',
    Hook_Exec fuel (Some l) ctx w
    = Ret (mk_world (<[l := hk']> (hooks w)) (hd w)
             (log w ++ (function_event ctx <$> fs) ++ (ns ≫= notify_events)))
    ∧ fs ≡ₚ (map_to_list (functions (register_all (NewHook nm d) rs))).*2
    ∧ ns ≡ₚ (map_to_list (notifies (register_all (NewHook nm d) rs))).*2
    ∧ StronglySorted (order_le Function.Order) fs
    ∧ StronglySorted (order_le Notify.Order) ns.
Proof.
  intros Hl Hno Hf Hn.
  destruct (hook_Exec_first fuel ctx (register_all (NewHook nm d) rs))
    as (fs & ns & Hex & Hrest); try done.
  { apply unexecuted_register_all, unexecuted_NewHook. }
  { intros k n Hk. pose proof (uint16_le_max (Notify.Order n)).
    specialize (Hno k n Hk). lia. }
  exists fs, ns. eexists. unfold Hook_Exec. rewrite Hl, Hex. by split.
Qed.

Lemma Hook_Exec_frame `{MapRange} fuel l ctx w w' :
  Hook_Exec fuel (Some l) ctx w = Ret w' →
  ∀ l', l' ≠ l → hooks w' !! l' = hooks w !! l'.
Proof.
  unfold Hook_Exec. destruct (hooks w !! l) as [hk |]; [| done].
  destruct (hook_Exec fuel ctx hk) as [r | |]; simpl; try done.
  intros [= <-] l' Hne. simpl. by rewrite lookup_insert_ne.
Qed.

Lemma Hook_Exec_hangs `{MapRange} fuel l ctx w nm d rs k n :
  hooks w !! l = Some (register_all (NewHook nm d) rs) →
  notifies (register_all (NewHook nm d) rs) !! k = Some n →
  u16 (Notify.Order n) = MaxUint16 →
  Hook_Exec fuel (Some l) ctx w = Timeout.
Proof.
  intros Hl Hk Hmax. unfold Hook_Exec. rewrite Hl.
  by rewrite (hook_Exec_hangs fuel ctx nm d rs k n Hk Hmax).
Qed.

(** X14. [Exit(code)] with a fresh exit hook: the attempt to stop the loop,
    then the exit hook with the context (nil signal, Exit, Manual, code) -
    its functions in non-decreasing [Order], then its notifies - then
    [signal.Reset] on all captured signals, then [os.Exit(code)]; the latch
    is set and the loop is marked as not running. *)
Theorem Exit_runs_the_exit_hook `{MapRange} fuel code w l nm d rs :
  exitLock (hd w) = false →
  exitHook (hd w) = Some l →
  hooks w !! l = Some (register_all (NewHook nm d) rs) →
  (∀ k n, notifies (register_all (NewHook nm d) rs) !! k = Some n →
          u16 (Notify.Order n) ≠ MaxUint16) →
  (size (functions (register_all (NewHook nm d) rs)) ≤ fuel)%nat →
  (size (notifies (register_all (NewHook nm d) rs)) ≤ fuel)%nat →
  ∃ fs ns hk',
    handler_Exit fuel code w
    = Ret (mk_world (<[l := hk']> (hooks w))
             (mk_handler (Some l) (hookMap (hd w)) (capturing (hd w)) false true)
             (log w
              ++ [EvExitChTrySend;
                  EvExitHookExec (Some l) (mkOSSignal None true ExitTypeManual code)]
              ++ (function_event (mkOSSignal None true ExitTypeManual code) <$> fs)
              ++ (ns ≫= notify_events)
              ++ [EvSignalReset (capturing (hd w)); EvOsExit code]))
    ∧ fs ≡ₚ (map_to_list (functions (register_all (NewHook nm d) rs))).*2
    ∧ ns ≡ₚ (map_to_list (notifies (register_all (NewHook nm d) rs))).*2
    ∧ StronglySorted (order_le Function.Order) fs
    ∧ StronglySorted (order_le Notify.Order) ns.
Proof.
  intros Hlock He Hl Hno Hf Hn.
  unfold handler_Exit, handler_exit. rewrite Hlock. simpl. rewrite He.
  match goal with
  | |- context [Hook_Exec fuel (Some l) ?c ?w1] =>
      destruct (Hook_Exec_first fuel l c w1 nm d rs Hl Hno Hf Hn)
        as (fs & ns & hk' & -> & Hrest)
  end.
  exists fs, ns, hk'. split; [| done].
  unfold emit, set_loopLock, set_exitLock. simpl. rewrite He.
  do 2 f_equal. by rewrite <- !app_assoc.
Qed.

Lemma Exit_runs_the_exit_hook_witness :
  let w := mk_world {[ 1%positive := register_all (NewHook "exit" "x") [RegFunction fn_a] ]}
             (mk_handler (Some 1%positive) ∅ [Some SIGINT; Some SIGTERM; Some SIGQUIT]
                true false) [] in
  ∃ fs ns hk',
    @handler_Exit range_fwd 1 3 w
    = Ret (mk_world (<[1%positive := hk']> (hooks w))
             (mk_handler (Some 1%positive) (hookMap (hd w)) (capturing (hd w)) false true)
             (log w
              ++ [EvExitChTrySend;
                  EvExitHookExec (Some 1%positive) (mkOSSignal None true ExitTypeManual 3)]
              ++ (function_event (mkOSSignal None true ExitTypeManual 3) <$> fs)
              ++ (ns ≫= notify_events)
              ++ [EvSignalReset (capturing (hd w)); EvOsExit 3]))
    ∧ fs ≡ₚ (map_to_list (functions (register_all (NewHook "exit" "x") [RegFunction fn_a]))).*2
    ∧ ns ≡ₚ (map_to_list (notifies (register_all (NewHook "exit" "x") [RegFunction fn_a]))).*2
    ∧ StronglySorted (order_le Function.Order) fs
    ∧ StronglySorted (order_le Notify.Order) ns.
Proof.
  intros w.
  apply (@Exit_runs_the_exit_hook range_fwd 1 3 w 1%positive "exit" "x" [RegFunction fn_a]).
  - reflexivity.
  - reflexivity.
  - reflexivity.
  - intros k n. vm_compute. discriminate.
  - vm_compute. lia.
  - vm_compute. lia.
Defined.

(** X15. A signal outside the termination class: without a hook for it,
    [handleSignal] changes nothing; with a fresh hook it runs that hook with
    the context (signal, no Exit, Signal, 0) and leaves the handler as it
    was - no latch, no [signal.Reset], no [os.Exit]. *)
Theorem handleSignal_other_signal `{MapRange} fuel sig w :
  exitLock (hd w) = false →
  is_termination sig = false →
  (hookMap (hd w) !! sig = None → handler_handleSignal fuel sig w = Ret w)
  ∧ (∀ l nm d rs,
       hookMap (hd w) !! sig = Some (Some l) →
       hooks w !! l = Some (register_all (NewHook nm d) rs) →
       (∀ k n, notifies (register_all (NewHook nm d) rs) !! k = Some n →
               u16 (Notify.Order n) ≠ MaxUint16) →
       (size (functions (register_all (NewHook nm d) rs)) ≤ fuel)%nat →
       (size (notifies (register_all (NewHook nm d) rs)) ≤ fuel)%nat →
       ∃ fs ns hk',
         handler_handleSignal fuel sig w
         = Ret (mk_world (<[l := hk']> (hooks w)) (hd w)
                  (log w
                   ++ [EvHookExec (Some l) (mkOSSignal sig false ExitTypeSignal 0)]
                   ++ (function_event (mkOSSignal sig false ExitTypeSignal 0) <$> fs)
                   ++ (ns ≫= notify_events)))
         ∧ fs ≡ₚ (map_to_list (functions (register_all (NewHook nm d) rs))).*2
         ∧ ns ≡ₚ (map_to_list (notifies (register_all (NewHook nm d) rs))).*2
         ∧ StronglySorted (order_le Function.Order) fs
         ∧ StronglySorted (order_le Notify.Order) ns).
Proof.
  intros Hlock Hterm. rewrite handler_handleSignal_unfold by done. rewrite Hterm.
  split.
  - by intros ->.
  - intros l nm d rs Hs Hl Hno Hf Hn. rewrite Hs.
    match goal with
    | |- context [Hook_Exec fuel (Some l) ?c ?w1] =>
        destruct (Hook_Exec_first fuel l c w1 nm d rs Hl Hno Hf Hn)
          as (fs & ns & hk' & -> & Hrest)
    end.
    exists fs, ns, hk'. split; [| done]. simpl. by rewrite <- !app_assoc.
Qed.

Lemma handleSignal_other_signal_witness :
  let w := mk_world {[ 1%positive := register_all (NewHook "usr" "x") [RegFunction fn_a] ]}
             (mk_handler None {[ Some 10 := Some 1%positive ]} [Some 10] true false) [] in
  @handler_handleSignal range_fwd 1 (Some 12) w = Ret w
  ∧ ∃ fs ns hk',
      @handler_handleSignal range_fwd 1 (Some 10) w
      = Ret (mk_world (<[1%positive := hk']> (hooks w)) (hd w)
               (log w
                ++ [EvHookExec (Some 1%positive) (mkOSSignal (Some 10) false ExitTypeSignal 0)]
                ++ (function_event (mkOSSignal (Some 10) false ExitTypeSignal 0) <$> fs)
                ++ (ns ≫= notify_events)))
      ∧ fs ≡ₚ (map_to_list (functions (register_all (NewHook "usr" "x") [RegFunction fn_a]))).*2
      ∧ ns ≡ₚ (map_to_list (notifies (register_all (NewHook "usr" "x") [RegFunction fn_a]))).*2
      ∧ StronglySorted (order_le Function.Order) fs
      ∧ StronglySorted (order_le Notify.Order) ns.
Proof.
  intros w. split.
  - destruct (@handleSignal_other_signal range_fwd 1 (Some 12) w) as [Hnone _];
      [reflexivity | reflexivity |].
    apply Hnone. reflexivity.
  - destruct (@handleSignal_other_signal range_fwd 1 (Some 10) w) as [_ Hsome];
      [reflexivity | reflexivity |].
    apply (Hsome 1%positive "usr" "x" [RegFunction fn_a]).
    + reflexivity.
    + reflexivity.
    + intros k n. vm_compute. discriminate.
    + vm_compute. lia.
    + vm_compute. lia.
Defined.

(** X16. With a notify at 65535 on the exit hook, no call that reaches the
    exit sequence returns: neither [Exit] nor a signal of the termination
    class gets to [signal.Reset] and [os.Exit], for any number of rounds. *)
Theorem exit_never_reached `{MapRange} fuel c w w1 l nm d rs k n :
  exitLock (hd w) = false →
  exit_triggering c →
  exitHook (hd w) = Some l →
  hooks w !! l = Some (register_all (NewHook nm d) rs) →
  notifies (register_all (NewHook nm d) rs) !! k = Some n →
  u16 (Notify.Order n) = MaxUint16 →
  run_call fuel c w ≠ Ret w1.
Proof.
  intros Hlock Hc He Hl Hk Hmax.
  assert (Hexit : ∀ code t sig w0,
            hd w0 = hd w → hooks w0 !! l = hooks w !! l →
            handler_exit fuel code t sig w0 = Timeout).
  { intros code t sig w0 Hhd Hhs. unfold handler_exit. rewrite Hhd, Hlock. simpl.
    rewrite Hhd, He.
    match goal with
    | |- context [Hook_Exec fuel (Some l) ?c ?w1] =>
        rewrite (Hook_Exec_hangs fuel l c w1 nm d rs k n)
    end; try done.
    simpl. by rewrite Hhs. }
  destruct c as [sig | code]; simpl in *.
  - rewrite handler_handleSignal_unfold by done. rewrite Hc.
    destruct (hookMap (hd w) !! sig) as [[l' |] |] eqn:Hs.
    + destruct (decide (l' = l)) as [-> | Hne].
      * by rewrite (Hook_Exec_hangs fuel l _ _ nm d rs k n).
      * match goal with
        | |- context [Hook_Exec ?a ?b ?c ?d] =>
            destruct (Hook_Exec a b c d) as [w0 | |] eqn:Hex; simpl; try done
        end.
        pose proof (Hook_Exec_inv _ _ _ _ _ Hex) as (Hhd & _).
        pose proof (Hook_Exec_frame _ _ _ _ _ Hex l) as Hfr.
        rewrite Hexit; [done | done |]. rewrite Hfr; [done |]. by intros ->.
    + done.
    + simpl. by rewrite Hexit.
  - unfold handler_Exit. by rewrite Hexit.
Qed.

Lemma exit_never_reached_witness :
  @run_call range_fwd 9 (CallHandleSignal (Some SIGTERM))
    (mk_world {[ 1%positive := register_all (NewHook "exit" "x") [RegNotify nt_last] ]}
       (mk_handler (Some 1%positive) ∅ [] false false) [])
  = Timeout.
Proof.
  destruct (@run_call range_fwd 9 (CallHandleSignal (Some SIGTERM))
              (mk_world
                 {[ 1%positive := register_all (NewHook "exit" "x") [RegNotify nt_last] ]}
                 (mk_handler (Some 1%positive) ∅ [] false false) [])) as [w1 | |] eqn:Hrun.
  - exfalso. revert Hrun.
    apply (@exit_never_reached range_fwd 9 (CallHandleSignal (Some SIGTERM)) _ w1
             1%positive "exit" "x" [RegNotify nt_last] "n" nt_last).
    + reflexivity.
    + reflexivity.
    + reflexivity.
    + reflexivity.
    + vm_compute. reflexivity.
    + reflexivity.
  - vm_compute in Hrun. discriminate Hrun.
  - reflexivity.
Defined.

(** X17. The nil signal.  [Set(nil, hook)] is accepted like any other
    signal and [Get(nil)] then returns the hook; but [Gets(nil)] without a
    stored hook panics, and so does a second [Set(nil, ...)], where the
    already-exists error would need the name of the signal. *)
Theorem nil_signal `{SignalNames} (w : world) (hook hook' : Hook) :
  hook ≠ None → hook' ≠ None →
  hookMap (hd w) !! None = None →
  handler_Gets None w = Panic
  ∧ ∃ w', handler_Set None hook w = Ret (None, w')
      ∧ handler_Get None w' = (hook, w')
      ∧ handler_Gets None w' = Ret (hook, w')
      ∧ handler_Set None hook' w' = Panic.
Proof.
  intros Hh Hh' Hs. destruct hook as [l |]; [| done]. destruct hook' as [l' |]; [| done].
  split.
  - unfold handler_Gets. by rewrite Hs.
  - unfold handler_Set. rewrite handler_set_fresh by done. eexists. split; [done |].
    unfold handler_Get, handler_Gets, handler_set. simpl.
    by rewrite lookup_insert_eq.
Qed.

Lemma nil_signal_witness :
  let w := initial_world {[ 1%positive := NewHook "x" "y" ]} in
  @handler_Gets sample_names None w = Panic
  ∧ ∃ w', @handler_Set sample_names None (Some 1%positive) w = Ret (None, w')
      ∧ handler_Get None w' = (Some 1%positive, w')
      ∧ @handler_Gets sample_names None w' = Ret (Some 1%positive, w')
      ∧ @handler_Set sample_names None (Some 1%positive) w' = Panic.
Proof.
  intros w.
  apply (@nil_signal sample_names w (Some 1%positive) (Some 1%positive)).
  - discriminate.
  - discriminate.
  - reflexivity.
Defined.

(** ** The exit sequence and hooks that do not return *)

(** C1 at two failing inputs.  (1) The default exit hook gets a notify at
    65535 and [Exit(0)] is called: the exit sequence sets the latch and then
    hangs in the exit hook's [Exec], so [os.Exit] is never called.  (2) One
    hook with a function is registered both for interrupt and as the exit
    hook, and an interrupt is delivered: the hook runs for the signal, and
    its second [Exec], from the exit sequence, panics before [os.Exit]. *)
Theorem exit_sequence_without_termination (R : MapRange) (N : SignalNames) (fuel : nat) :
  (∃ w, run_apis fuel [ApiGetsExit; ApiHookNotify (Some 1%positive) (Some nt_last)]
          (initial_world ∅) = Ret w
     ∧ exitLock (hd w) = false
     ∧ exitHook (hd w) = Some 1%positive
     ∧ run_apis fuel [ApiExit 0] w = Timeout)
  ∧ (∃ w, run_apis (S fuel)
            [ApiHookFunction (Some 1%positive) (Some fn_a);
             ApiSet (Some SIGINT) (Some 1%positive); ApiSetExit (Some 1%positive)]
            (initial_world {[ 1%positive := NewHook "h" "d" ]}) = Ret w
       ∧ exitLock (hd w) = false
       ∧ exitHook (hd w) = Some 1%positive
       ∧ run_apis (S fuel) [ApiHandleSignal (Some SIGINT)] w = Panic).
Proof.
  split.
  - eexists. split; [vm_compute; reflexivity |]. split; [done |]. split; [done |].
    cbn [run_apis run_api]. unfold handler_Exit, handler_exit. cbn [hd exitLock].
    simpl.
    match goal with
    | |- context [Hook_Exec fuel (Some 1%positive) ?c ?w1] =>
        rewrite (Hook_Exec_hangs fuel 1%positive c w1 "exit" "Handle program exit"
                   [RegNotify nt_last] "n" nt_last)
    end; done.
  - exists (mk_world {[ 1%positive := register (NewHook "h" "d") (RegFunction fn_a) ]}
              (mk_handler (Some 1%positive) {[ Some SIGINT := Some 1%positive ]}
                 [Some SIGINT; Some SIGTERM; Some SIGQUIT] false false)
              [EvSignalNotify (Some SIGINT); EvSignalNotify (Some SIGTERM);
               EvSignalNotify (Some SIGQUIT)]).
    split; [vm_compute; reflexivity |]. split; [done |]. split; [done |].
    destruct (hook_Exec_again_panics (S fuel)
                (mkOSSignal (Some SIGINT) true ExitTypeSignal 0)
                (mkOSSignal (Some SIGINT) true ExitTypeSignal 0)
                (register (NewHook "h" "d") (RegFunction fn_a)))
      as (h' & evs & Hex & _ & Hpanic).
    { apply unexecuted_register, unexecuted_NewHook. }
    { left. vm_compute. discriminate. }
    { intros k n. vm_compute. discriminate. }
    { vm_compute. lia. }
    { vm_compute. lia. }
    cbn [run_apis run_api]. rewrite handler_handleSignal_unfold by done.
    cbn [hd hookMap]. rewrite lookup_singleton_eq.
    change (is_termination (Some SIGINT)) with true.
    unfold Hook_Exec at 1. cbn [emit hooks hd log].
    rewrite lookup_singleton_eq, Hex. cbn [bind fst snd].
    unfold handler_exit.
    cbn [hd exitLock with_hd emit set_exitLock set_loopLock exitHook hooks log bind].
    unfold Hook_Exec, emit, with_hd. cbn [hooks hd log].
    rewrite lookup_insert_eq, Hpanic. done.
Qed.
